(** * typedprotocol: the type and method compatibility engines

    A shallow embedding of [typedprotocol/type_checker.py] and
    [typedprotocol/method_checker.py].

    - A type annotation is a value of [ty]; Python's [==] on annotations is
      structural equality of the descriptor ([ty_eqb]).
    - The TypeVar binding context ([dict[TypeVar, Any]]) is a
      [gmap string ty]; it is mutated in place by the code, so every
      operation returns the context it leaves behind, also when it raises.
    - Reflection can fail: [issubclass] and [inspect.signature] return a
      [result], and [try ... except] is [try_except].  *)

From stdpp Require Import gmap strings list fin_maps.

Set Warnings "-register-all".
Set Warnings "-clear-no-such-hyp".

(** ** Exceptions and the state-and-error monad *)

(** The exception classes the model tells apart: the three that the
    [except] clauses of the source name. An exception of any other class is
    outside the model; neither clause names it, and no statement below
    relies on there being none: where it matters the class of an exception
    is a hypothesis, written as membership in the clause's list. *)
Inductive exn := TypeError | ValueError | AttributeError.

Inductive result (A : Type) :=
| Ok (a : A)
| Raise (e : exn).
Arguments Ok {A} a.
Arguments Raise {A} e.

Definition exn_eqb (x y : exn) : bool :=
  match x, y with
  | TypeError, TypeError | ValueError, ValueError
  | AttributeError, AttributeError => true
  | _, _ => false
  end.

(** ** Type descriptors *)

Inductive ty :=
| TVar (v : string)                        (* an instance of typing.TypeVar *)
| TClass (c : string)                      (* a class object *)
| TGeneric (origin : string) (args : list ty)
                                           (* get_origin = origin, get_args = args *)
| TNone                                    (* the None object *)
| TOther (o : string).                     (* any other annotation object *)

(** A computation over the shared binding context. *)
Definition M (A : Type) : Type := gmap string ty → result A * gmap string ty.

Definition ret {A} (a : A) : M A := fun m => (Ok a, m).
Definition bind {A B} (c : M A) (k : A → M B) : M B :=
  fun m => match c m with
           | (Ok a, m') => k a m'
           | (Raise e, m') => (Raise e, m')
           end.
Definition lift {A} (r : result A) : M A := fun m => (r, m).

(** [try: c except (handled): h]: the handler runs in the context the body
    left behind; exceptions outside [handled] propagate. *)
Definition try_except {A} (c : M A) (handled : list exn) (h : M A) : M A :=
  fun m => match c m with
           | (Ok a, m') => (Ok a, m')
           | (Raise e, m') =>
               if existsb (exn_eqb e) handled then h m' else (Raise e, m')
           end.

Section ty_induction.
Variable P : ty → Prop.
Hypothesis HVar : ∀ v, P (TVar v).
Hypothesis HClass : ∀ c, P (TClass c).
Hypothesis HGeneric : ∀ o args, Forall P args → P (TGeneric o args).
Hypothesis HNone : P TNone.
Hypothesis HOther : ∀ o, P (TOther o).

Fixpoint ty_ind_nested (t : ty) : P t :=
  match t with
  | TVar v => HVar v
  | TClass c => HClass c
  | TGeneric o args =>
      HGeneric o args
        ((fix go (l : list ty) : Forall P l :=
            match l with
            | [] => Forall_nil_2 P
            | x :: l' => Forall_cons_2 P x l' (ty_ind_nested x) (go l')
            end) args)
  | TNone => HNone
  | TOther o => HOther o
  end.
End ty_induction.

(** Python's [==] on two annotations. *)
Fixpoint ty_eqb (a b : ty) {struct a} : bool :=
  match a, b with
  | TVar v, TVar w => bool_decide (v = w)
  | TClass c, TClass d => bool_decide (c = d)
  | TGeneric o xs, TGeneric p ys =>
      bool_decide (o = p) &&
      (fix all2 (xs ys : list ty) {struct xs} : bool :=
         match xs, ys with
         | [], [] => true
         | x :: xs', y :: ys' => ty_eqb x y && all2 xs' ys'
         | _, _ => false
         end) xs ys
  | TNone, TNone => true
  | TOther o, TOther p => bool_decide (o = p)
  | _, _ => false
  end.

(** ** Reflection primitives of [typing] and [inspect] *)

Definition isinstance_TypeVar (t : ty) : bool :=
  match t with TVar _ => true | _ => false end.

Definition get_origin (t : ty) : option string :=
  match t with TGeneric o _ => Some o | _ => None end.

Definition get_args (t : ty) : list ty :=
  match t with TGeneric _ args => args | _ => [] end.

Definition isclass (t : ty) : bool :=
  match t with TClass _ => true | _ => false end.

Definition is_None (t : ty) : bool :=
  match t with TNone => true | _ => false end.

(** [hasattr(typing, 'get_origin')]: true on every supported interpreter. *)
Definition typing_has_get_origin : bool := true.

(** Truthiness of [get_origin]'s result: None is false, an origin object
    is true. *)
Definition truthy (o : option string) : bool :=
  match o with Some _ => true | None => false end.

Definition origin_eqb (a b : option string) : bool := bool_decide (a = b).

Section TypeChecker.

(** The builtin [issubclass] on two class objects: it consults the
    metaclass of its second argument, so it is an arbitrary function of
    the two classes that may raise. *)
Variable issubclass : string → string → result bool.

Definition issubclass_ty (a e : ty) : result bool :=
  match a, e with
  | TClass ca, TClass ce => issubclass ca ce
  | _, _ => Raise TypeError
  end.

(** [all(f(a, e) for a, e in zip(actual_args, expected_args))]: stops at
    the first False; an exception leaves the generator. *)
Fixpoint all_zip (f : ty → ty → M bool) (xs ys : list ty) : M bool :=
  match xs, ys with
  | a :: xs', e :: ys' =>
      bind (f a e) (fun b => if b then all_zip f xs' ys' else ret false)
  | _, _ => ret true
  end.

(** The body of the [try] block, with the recursive call abstracted. *)
Definition is_compatible_body (rec : ty → ty → M bool)
    (actual expected : ty) : M bool :=
  fun m =>
  match expected with
  | TVar v =>
      match m !! v with
      | Some bound => (Ok (ty_eqb bound actual), m)
      | None => (Ok true, <[v := actual]> m)
      end
  | _ =>
    let actual_origin := get_origin actual in
    let expected_origin := get_origin expected in
    if typing_has_get_origin &&
       (bool_decide (actual_origin ≠ None) ||
        bool_decide (expected_origin ≠ None)) then
      if negb (origin_eqb actual_origin expected_origin) then (Ok false, m)
      else
        let actual_args :=
          if truthy actual_origin then get_args actual else [] in
        let expected_args :=
          if truthy expected_origin then get_args expected else [] in
        if negb (length actual_args =? length expected_args) then
          (Ok false, m)
        else all_zip rec actual_args expected_args m
    else if isclass actual && isclass expected then
      lift (issubclass_ty actual expected) m
    else (Ok (ty_eqb actual expected), m)
  end.

(** The [except (TypeError, AttributeError)] clause. *)
Definition is_compatible_handler (actual expected : ty) : M bool :=
  ret (ty_eqb actual expected).

(** [TypeChecker.is_compatible_with_unification]. The recursion is on the
    structure of [expected]: a recursive call is on an element of its
    argument list. When [expected] has no arguments the generator of the
    [all(...)] is empty, so no recursive call is made there;
    [is_compatible_with_unification_eq] below gives the equation in the
    shape of the source. *)
Fixpoint is_compatible_with_unification (actual expected : ty)
    {struct expected} : M bool :=
  try_except
    (match expected with
     | TGeneric eo eargs =>
         fun m =>
         let actual_origin := get_origin actual in
         if negb (origin_eqb actual_origin (Some eo)) then (Ok false, m)
         else
           let actual_args :=
             if truthy actual_origin then get_args actual else [] in
           if negb (length actual_args =? length eargs) then (Ok false, m)
           else
             (fix all_args (xs ys : list ty) {struct ys} : M bool :=
                match xs, ys with
                | a :: xs', e :: ys' =>
                    bind (is_compatible_with_unification a e)
                         (fun b => if b then all_args xs' ys' else ret false)
                | _, _ => ret true
                end) actual_args eargs m
     | _ => is_compatible_body (fun _ _ => ret true) actual expected
     end)
    [TypeError; AttributeError]
    (is_compatible_handler actual expected).

(** [TypeChecker.is_compatible]. *)
Definition is_compatible (actual expected : ty) : result bool :=
  fst (is_compatible_with_unification actual expected ∅).

(** ** Methods *)

(** What the method checker reads from a callable. *)
Inductive method := Method {
  (* inspect.signature(m): the parameter names in order (for a function
     taken from a class body the first one is the receiver), or the
     exception it raises *)
  m_signature : result (list string);
  (* getattr(m, '__annotations__', {}) *)
  m_annotations : gmap string ty;
  (* inspect.iscoroutinefunction(m) *)
  m_iscoroutine : bool;
  (* the attribute _original_method of a substituted method, if any *)
  m_original : option method
}.

(** [d.get(k)]: the None object when the key is absent. *)
Definition dict_get (d : gmap string ty) (k : string) : ty :=
  default TNone (d !! k).

(** The [for ... in zip(actual_params, protocol_params)] loop; [false] is
    an early [return False], [true] is a loop that ran to its end. *)
Fixpoint check_params (actual_annotations protocol_annotations : gmap string ty)
    (actual_params protocol_params : list string) : M bool :=
  match actual_params, protocol_params with
  | actual_param :: actual_rest, protocol_param :: protocol_rest =>
      if negb (String.eqb actual_param protocol_param) then ret false
      else
        let actual_param_type := dict_get actual_annotations actual_param in
        let protocol_param_type :=
          dict_get protocol_annotations protocol_param in
        if negb (is_None protocol_param_type) then
          if is_None actual_param_type then ret false
          else
            bind (is_compatible_with_unification
                    actual_param_type protocol_param_type)
                 (fun ok =>
                    if negb ok then ret false
                    else check_params actual_annotations protocol_annotations
                           actual_rest protocol_rest)
        else check_params actual_annotations protocol_annotations
               actual_rest protocol_rest
  | _, _ => ret true
  end.

(** The signature the protocol side is compared by: the one of
    [_original_method] for a substituted method. *)
Definition protocol_signature (protocol_method : method)
    : result (list string) :=
  match m_original protocol_method with
  | Some original => m_signature original
  | None => m_signature protocol_method
  end.

(** The body of the [try] block of [are_compatible_with_unification]. *)
Definition are_compatible_body (actual_method protocol_method : method)
    : M bool :=
  bind (lift (m_signature actual_method)) (fun actual_sig =>
  bind (lift (protocol_signature protocol_method)) (fun protocol_sig =>
  let protocol_annotations := m_annotations protocol_method in
  if negb (Bool.eqb (m_iscoroutine actual_method)
                    (m_iscoroutine protocol_method)) then ret false
  else
    let actual_annotations := m_annotations actual_method in
    let actual_params := actual_sig in
    let protocol_params := protocol_sig in
    if negb (length actual_params =? length protocol_params) then ret false
    else
      bind (check_params actual_annotations protocol_annotations
              actual_params protocol_params)
           (fun completed =>
              if negb completed then ret false
              else
                let actual_return := dict_get actual_annotations "return" in
                let protocol_return :=
                  dict_get protocol_annotations "return" in
                if negb (is_None protocol_return) then
                  if is_None actual_return then ret false
                  else
                    bind (is_compatible_with_unification
                            actual_return protocol_return)
                         (fun ok => if negb ok then ret false else ret true)
                else ret true))).

(** [MethodChecker.are_compatible_with_unification]. *)
Definition are_compatible_with_unification
    (actual_method protocol_method : method) : M bool :=
  try_except (are_compatible_body actual_method protocol_method)
    [TypeError; ValueError; AttributeError]
    (ret false).

(** [MethodChecker.are_compatible]. *)
Definition are_compatible (actual_method protocol_method : method)
    : result bool :=
  fst (are_compatible_with_unification actual_method protocol_method ∅).

End TypeChecker.

(** ** A concrete class table for the examples

    [bool] derives from [int]; every class derives from [object]; [Proto]
    stands for a class whose metaclass refuses class checks (as a
    [typing.Protocol] class without [runtime_checkable] does) by raising
    TypeError. *)

Definition demo_mro (c : string) : list string :=
  if String.eqb c "bool" then ["bool"; "int"; "object"]
  else [c; "object"].

Definition demo_issubclass (a e : string) : result bool :=
  if String.eqb e "Proto" then Raise TypeError
  else Ok (existsb (String.eqb e) (demo_mro a)).

Definition t_int : ty := TClass "int".
Definition t_bool : ty := TClass "bool".
Definition t_str : ty := TClass "str".
Definition t_bytes : ty := TClass "bytes".
Definition t_T : ty := TVar "T".

Definition t_Proto : ty := TClass "Proto".
Definition t_dict (k v : ty) : ty := TGeneric "dict" [k; v].
Definition t_list (x : ty) : ty := TGeneric "list" [x].

(** A plain function taken from a class body. *)
Definition def (params : list string) (annotations : list (string * ty))
    : method :=
  Method (Ok params) (list_to_map annotations) false None.


(** [def notify(self, message: str) -> None] *)
Definition notify_protocol : method :=
  def ["self"; "message"] [("message", t_str); ("return", TNone)].

(** [def notify(self, message: str) -> int] *)
Definition notify_returning_int : method :=
  def ["self"; "message"] [("message", t_str); ("return", t_int)].

(** [def process(self, item: T) -> T] *)
Definition process_generic : method :=
  def ["self"; "item"] [("item", t_T); ("return", t_T)].

(** [def process(self, item: str) -> None] *)
Definition process_returning_none : method :=
  def ["self"; "item"] [("item", t_str); ("return", TNone)].

(** [def process(self, data: bytes) -> str] *)
Definition process_protocol : method :=
  def ["self"; "data"] [("data", t_bytes); ("return", t_str)].

(** [def process(this, data: bytes) -> str] *)
Definition process_this : method :=
  def ["this"; "data"] [("data", t_bytes); ("return", t_str)].




(** [def validate(self, value: int) -> bool] *)
Definition validate_protocol : method :=
  def ["self"; "value"] [("value", t_int); ("return", t_bool)].

(** [def validate(self, value: bool) -> bool] *)
Definition validate_bool : method :=
  def ["self"; "value"] [("value", t_bool); ("return", t_bool)].

(** [def convert(self, source, target: T) -> T]: [source] is untyped. *)
Definition convert_protocol : method :=
  def ["self"; "source"; "target"] [("target", t_T); ("return", t_T)].

(** [def convert(self, source: bytes, target: str) -> str] *)
Definition convert_candidate : method :=
  def ["self"; "source"; "target"]
      [("source", t_bytes); ("target", t_str); ("return", t_str)].

(** [def check(self, x: None) -> int] *)
Definition none_parameter_protocol : method :=
  def ["self"; "x"] [("x", TNone); ("return", t_int)].

(** [def check(self, x: str) -> int] *)
Definition none_parameter_candidate : method :=
  def ["self"; "x"] [("x", t_str); ("return", t_int)].

(** [def pair(self, a: T, b: T) -> T] *)
Definition pair_protocol : method :=
  def ["self"; "a"; "b"] [("a", t_T); ("b", t_T); ("return", t_T)].

(** [def pair(self, a: str, b: int) -> int] *)
Definition pair_candidate : method :=
  def ["self"; "a"; "b"] [("a", t_str); ("b", t_int); ("return", t_int)].

(** A class table in which the metaclass of [Strict] answers False to
    every class check, also to the one of [Strict] against itself; the
    other classes are as in [demo_issubclass]. *)
Definition strict_issubclass (a e : string) : result bool :=
  if String.eqb e "Strict" then Ok false else demo_issubclass a e.

Definition t_Strict : ty := TClass "Strict".

(** ** Specification-side relations *)

(** The argument pairs are compatible one after the other, each check
    starting in the context its predecessor left. *)
Inductive pairs_unify (issubclass : string → string → result bool)
  : list ty → list ty → gmap string ty → gmap string ty → Prop :=
| pairs_unify_nil m : pairs_unify issubclass [] [] m m
| pairs_unify_cons a e xs ys m m1 m2 :
    is_compatible_with_unification issubclass a e m = (Ok true, m1) →
    pairs_unify issubclass xs ys m1 m2 →
    pairs_unify issubclass (a :: xs) (e :: ys) m m2.

(** The code's own test for "a type is declared for this name":
    [annotations.get(name) is not None]. An annotation that is the None
    object itself ([x: None], [-> None]) therefore does not pass it. *)
Definition declares (annotations : gmap string ty) (name : string) : Prop :=
  dict_get annotations name ≠ TNone.

(** The TypeVars the type checker can reach in a descriptor: the
    descriptor itself, or an element of its [get_args], recursively. A
    TypeVar inside an argument that is no type (the parameter list of a
    [Callable], which [get_args] returns as a plain list) is not reached,
    and is not in this set. *)
Fixpoint typevars (t : ty) : gset string :=
  match t with
  | TVar v => {[ v ]}
  | TGeneric _ args => ⋃ (typevars <$> args)
  | _ => ∅
  end.


(** The names whose annotations the method checker compares: the
    parameters for which the protocol declares a type, in order, then the
    return when the protocol declares one. *)
Definition compared_names (protocol_annotations : gmap string ty)
    (names : list string) : list string :=
  List.filter (λ k, negb (is_None (dict_get protocol_annotations k))) names ++
  (if is_None (dict_get protocol_annotations "return") then []
   else ["return"]).

(** * Basic facts *)

Section facts.
Variable issubclass : string → string → result bool.

#[local] Abbreviation is_compat := (is_compatible_with_unification issubclass).
#[local] Abbreviation are_compat := (are_compatible_with_unification issubclass).

Lemma ty_eqb_eq (a b : ty) : ty_eqb a b = true ↔ a = b.
Proof.
  revert b. induction a as [v|c|o args IH| |o] using ty_ind_nested;
    intros [w|d|p ys| |p]; simpl; try (split; [done | congruence]);
    try (rewrite bool_decide_eq_true; split; congruence).
  - rewrite andb_true_iff, bool_decide_eq_true.
    assert (Hl : (fix all2 (xs ys : list ty) {struct xs} : bool :=
                    match xs, ys with
                    | [], [] => true
                    | x :: xs', y :: ys' => ty_eqb x y && all2 xs' ys'
                    | _, _ => false
                    end) args ys = true ↔ args = ys).
    { revert ys. induction IH as [|x xs Hx _ IHxs]; intros [|y ys]; simpl;
        try (split; [done | congruence]).
      rewrite andb_true_iff, Hx, IHxs. split; [intros [-> ->]; done | ].
      intros [= -> ->]. done. }
    rewrite Hl. split; [intros [-> ->]; done | intros [= -> ->]; done].
Qed.

Lemma ty_eqb_refl (a : ty) : ty_eqb a a = true.
Proof. by apply ty_eqb_eq. Qed.

Lemma ty_eqb_neq (a b : ty) : ty_eqb a b = false ↔ a ≠ b.
Proof.
  rewrite <- ty_eqb_eq. destruct (ty_eqb a b); naive_solver.
Qed.

(** The local recursion of the fixpoint is [all_zip]. *)
Lemma all_args_all_zip (xs ys : list ty) :
  (fix all_args (xs ys : list ty) {struct ys} : M bool :=
     match xs, ys with
     | a :: xs', e :: ys' =>
         bind (is_compat a e)
              (fun b => if b then all_args xs' ys' else ret false)
     | _, _ => ret true
     end) xs ys = all_zip is_compat xs ys.
Proof.
  revert xs. induction ys as [|e ys IH]; intros [|a xs]; simpl; try done.
  f_equal. by rewrite <- IH.
Qed.

(** The fixpoint satisfies the equation of the source: the [try] body with
    the function itself as the recursive call, under the [except] clause. *)
Lemma is_compatible_with_unification_eq (actual expected : ty)
    (m : gmap string ty) :
  is_compat actual expected m =
  try_except (is_compatible_body issubclass is_compat actual expected)
    [TypeError; AttributeError] (is_compatible_handler actual expected) m.
Proof.
  destruct expected as [v|c|o args| |s]; simpl; try done;
    unfold try_except, is_compatible_body; simpl;
    destruct actual as [w|d|p xs| |p]; simpl; try done.
  rewrite all_args_all_zip. done.
Qed.

(** *** What the type checker can raise *)

(** The [except] clause absorbs TypeError and AttributeError, and its
    handler cannot fail: only a ValueError can leave the call. *)
Lemma is_compat_raises (actual expected : ty) (m m' : gmap string ty)
    (x : exn) :
  is_compat actual expected m = (Raise x, m') → x = ValueError.
Proof.
  rewrite is_compatible_with_unification_eq.
  unfold try_except, is_compatible_handler, ret.
  destruct (is_compatible_body _ _ _ _ m) as [[b|[]] m1]; simpl; congruence.
Qed.

Lemma all_zip_raises (xs ys : list ty) (m m' : gmap string ty) (x : exn) :
  all_zip is_compat xs ys m = (Raise x, m') → x = ValueError.
Proof.
  revert ys m. induction xs as [|a xs IH]; intros [|e ys] m; simpl;
    try (unfold ret; congruence).
  unfold bind. destruct (is_compat a e m) as [[[]|y] m1] eqn:Ha.
  - apply IH.
  - unfold ret; congruence.
  - intros [= <- <-]. by eapply is_compat_raises.
Qed.

(** *** The call, rule by rule *)

(** A [try] body that returned is the result of the call. *)
Lemma is_compat_of_body (actual expected : ty) (m m' : gmap string ty)
    (b : bool) :
  is_compatible_body issubclass is_compat actual expected m = (Ok b, m') →
  is_compat actual expected m = (Ok b, m').
Proof.
  intros H. rewrite is_compatible_with_unification_eq.
  unfold try_except. by rewrite H.
Qed.

Lemma is_compat_TVar (actual : ty) (v : string) (m : gmap string ty) :
  is_compat actual (TVar v) m =
  match m !! v with
  | Some bound => (Ok (ty_eqb bound actual), m)
  | None => (Ok true, <[v := actual]> m)
  end.
Proof. simpl. unfold try_except. simpl. by destruct (m !! v). Qed.

Lemma is_compat_generic_expected (actual : ty) (o : string) (args : list ty)
    (m : gmap string ty) :
  is_compat actual (TGeneric o args) m =
  if negb (origin_eqb (get_origin actual) (Some o)) then (Ok false, m)
  else if negb (length (get_args actual) =? length args) then (Ok false, m)
  else all_zip is_compat (get_args actual) args m.
Proof.
  rewrite is_compatible_with_unification_eq.
  unfold try_except, is_compatible_body. simpl. rewrite orb_true_r.
  destruct actual as [w|d|p xs| |p]; simpl; try done.
  destruct (negb (origin_eqb _ _)); [done|].
  destruct (negb (_ =? _)); [done|].
  destruct (all_zip is_compat xs args m) as [[b|x] m1] eqn:Hz; [done|].
  apply all_zip_raises in Hz as ->. done.
Qed.

Lemma is_compat_generic_actual (actual expected : ty) (m : gmap string ty) :
  isinstance_TypeVar expected = false →
  get_origin expected = None →
  get_origin actual ≠ None →
  is_compat actual expected m = (Ok false, m).
Proof.
  intros Hv He Ha. rewrite is_compatible_with_unification_eq.
  unfold try_except, is_compatible_body.
  destruct expected as [v|c|o args| |s]; try done;
    destruct actual as [w|d|p xs| |p]; done.
Qed.

Lemma is_compat_classes (ca ce : string) (m : gmap string ty) :
  is_compat (TClass ca) (TClass ce) m =
  match issubclass ca ce with
  | Ok b => (Ok b, m)
  | Raise ValueError => (Raise ValueError, m)
  | Raise _ => (Ok (ty_eqb (TClass ca) (TClass ce)), m)
  end.
Proof.
  rewrite is_compatible_with_unification_eq.
  unfold try_except, is_compatible_body, lift. simpl.
  by destruct (issubclass ca ce) as [b|[]].
Qed.

Lemma is_compat_plain (actual expected : ty) (m : gmap string ty) :
  isinstance_TypeVar expected = false →
  get_origin actual = None →
  get_origin expected = None →
  isclass actual && isclass expected = false →
  is_compat actual expected m = (Ok (ty_eqb actual expected), m).
Proof.
  intros Hv Ha He Hc. rewrite is_compatible_with_unification_eq.
  unfold try_except, is_compatible_body.
  destruct expected as [v|c|o args| |s]; try done;
    destruct actual as [w|d|p xs| |p]; done.
Qed.

(** *** The binding context only grows *)

Lemma all_zip_extends (f : ty → ty → M bool) (xs ys : list ty)
    (m : gmap string ty) :
  Forall (λ e, ∀ a m, m ⊆ (f a e m).2) ys →
  m ⊆ (all_zip f xs ys m).2.
Proof.
  intros Hys. revert xs m.
  induction Hys as [|e ys He _ IH]; intros [|a xs] m; simpl; try done.
  unfold bind. specialize (He a m).
  destruct (f a e m) as [[[]|x] m1]; simpl in *; try done.
  etrans; [exact He | apply IH].
Qed.

Lemma is_compat_extends (actual expected : ty) (m : gmap string ty) :
  m ⊆ (is_compat actual expected m).2.
Proof.
  revert actual m.
  induction expected as [v|c|o args IH| |o] using ty_ind_nested;
    intros actual m.
  - rewrite is_compat_TVar.
    destruct (m !! v) eqn:Hv; simpl; [done | by apply insert_subseteq].
  - destruct actual as [w|d|p xs| |p];
      try (rewrite is_compat_plain by done; done);
      try (rewrite is_compat_generic_actual by done; done).
    rewrite is_compat_classes. by destruct (issubclass d c) as [b|[]].
  - rewrite is_compat_generic_expected.
    destruct (negb _); [done|]. destruct (negb _); [done|].
    by apply all_zip_extends.
  - destruct actual as [w|d|p xs| |p];
      try (rewrite is_compat_plain by done; done);
      try (rewrite is_compat_generic_actual by done; done).
  - destruct actual as [w|d|p xs| |p];
      try (rewrite is_compat_plain by done; done);
      try (rewrite is_compat_generic_actual by done; done).
Qed.

(** *** When the call returns *)

Lemma all_zip_returns (f : ty → ty → M bool) (xs ys : list ty)
    (m : gmap string ty) :
  Forall (λ e, ∀ a m, ∃ b m', f a e m = (Ok b, m')) ys →
  ∃ b m', all_zip f xs ys m = (Ok b, m').
Proof.
  intros Hys. revert xs m.
  induction Hys as [|e ys He _ IH]; intros [|a xs] m; simpl;
    unfold ret; eauto.
  unfold bind. destruct (He a m) as (b & m1 & ->). destruct b; eauto.
Qed.

(** With an [issubclass] that never raises ValueError the call returns. *)
Lemma is_compat_returns (actual expected : ty) (m : gmap string ty) :
  (∀ ca ce, issubclass ca ce ≠ Raise ValueError) →
  ∃ b m', is_compat actual expected m = (Ok b, m').
Proof.
  intros Hsub. revert actual m.
  induction expected as [v|c|o args IH| |o] using ty_ind_nested;
    intros actual m.
  - rewrite is_compat_TVar. destruct (m !! v); eauto.
  - destruct actual as [w|d|p xs| |p];
      try (rewrite is_compat_plain by done; eauto);
      try (rewrite is_compat_generic_actual by done; eauto).
    rewrite is_compat_classes. pose proof (Hsub d c) as Hc.
    destruct (issubclass d c) as [b|[]]; eauto. done.
  - rewrite is_compat_generic_expected.
    destruct (negb _); eauto. destruct (negb _); eauto.
    by apply all_zip_returns.
  - destruct actual as [w|d|p xs| |p];
      try (rewrite is_compat_plain by done; eauto);
      try (rewrite is_compat_generic_actual by done; eauto).
  - destruct actual as [w|d|p xs| |p];
      try (rewrite is_compat_plain by done; eauto);
      try (rewrite is_compat_generic_actual by done; eauto).
Qed.

(** *** The method checker *)

(** Every exception class the body can raise is in the [except] clause. *)
Lemma are_compat_of_body (am pm : method) (m : gmap string ty) :
  are_compat am pm m =
  match are_compatible_body issubclass am pm m with
  | (Ok b, m') => (Ok b, m')
  | (Raise _, m') => (Ok false, m')
  end.
Proof.
  unfold are_compatible_with_unification, try_except.
  by destruct (are_compatible_body _ _ _ _) as [[b|[]] m'].
Qed.

Lemma are_compat_returns (am pm : method) (m : gmap string ty) :
  ∃ b m', are_compat am pm m = (Ok b, m').
Proof.
  rewrite are_compat_of_body.
  destruct (are_compatible_body _ _ _ _) as [[b|x] m']; eauto.
Qed.

Lemma check_params_extends (aa pa : gmap string ty) (xs ys : list string)
    (m : gmap string ty) :
  m ⊆ (check_params issubclass aa pa xs ys m).2.
Proof.
  revert ys m. induction xs as [|x xs IH]; intros [|y ys] m; simpl; try done.
  destruct (negb (String.eqb x y)); [done|].
  destruct (negb (is_None (dict_get pa y))); [|apply IH].
  destruct (is_None (dict_get aa x)); [done|].
  unfold bind. pose proof (is_compat_extends (dict_get aa x) (dict_get pa y) m).
  destruct (is_compat _ _ m) as [[[]|e] m1]; simpl in *; try done.
  etrans; [done | apply IH].
Qed.

Lemma are_compatible_body_extends (am pm : method) (m : gmap string ty) :
  m ⊆ (are_compatible_body issubclass am pm m).2.
Proof.
  unfold are_compatible_body, bind, lift, ret.
  destruct (m_signature am) as [xs|e]; [|done].
  destruct (protocol_signature pm) as [ys|e]; [|done].
  destruct (negb (Bool.eqb _ _)); [done|].
  destruct (negb (_ =? _)); [done|].
  pose proof (check_params_extends (m_annotations am) (m_annotations pm)
                xs ys m) as H1.
  destruct (check_params _ _ _ _ _ m) as [[[]|e] m1]; simpl in *; try done.
  destruct (negb (is_None _)); [|done].
  destruct (is_None _); [done|].
  pose proof (is_compat_extends (dict_get (m_annotations am) "return")
                (dict_get (m_annotations pm) "return") m1) as H2.
  destruct (is_compat _ _ m1) as [[[]|e] m2]; simpl in *; by etrans.
Qed.

Lemma are_compat_extends (am pm : method) (m : gmap string ty) :
  m ⊆ (are_compat am pm m).2.
Proof.
  rewrite are_compat_of_body.
  pose proof (are_compatible_body_extends am pm m) as H.
  by destruct (are_compatible_body _ _ _ _) as [[b|x] m'].
Qed.

(** What a True result of the method checker went through. *)
Lemma are_compat_true_inv (am pm : method) (m m' : gmap string ty) :
  are_compat am pm m = (Ok true, m') →
  ∃ xs ys m1,
    m_signature am = Ok xs ∧ protocol_signature pm = Ok ys ∧
    m_iscoroutine am = m_iscoroutine pm ∧ length xs = length ys ∧
    check_params issubclass (m_annotations am) (m_annotations pm) xs ys m
      = (Ok true, m1) ∧
    (if is_None (dict_get (m_annotations pm) "return") then m' = m1
     else is_None (dict_get (m_annotations am) "return") = false ∧
          is_compat (dict_get (m_annotations am) "return")
            (dict_get (m_annotations pm) "return") m1 = (Ok true, m')).
Proof.
  rewrite are_compat_of_body.
  unfold are_compatible_body, bind, lift, ret.
  destruct (m_signature am) as [xs|e]; [|done].
  destruct (protocol_signature pm) as [ys|e]; [|done].
  destruct (Bool.eqb _ _) eqn:Hco; simpl; [|done].
  destruct (length xs =? length ys) eqn:Hlen; simpl; [|done].
  destruct (check_params _ _ _ _ _ m) as [[[]|e] m1] eqn:Hcp; simpl;
    try done.
  intros H. exists xs, ys, m1.
  apply Bool.eqb_prop in Hco. apply Nat.eqb_eq in Hlen.
  repeat split; try done.
  destruct (is_None (dict_get (m_annotations pm) "return")); simpl in *.
  { congruence. }
  destruct (is_None (dict_get (m_annotations am) "return")); [done|].
  destruct (is_compat _ _ m1) as [[[]|e] m2]; simpl in *; done.
Qed.

End facts.

(** * The claims *)

(** ** C1: failures inside the two checks *)

(** C1, as stated, fails: comparing the class [Proto] with itself makes
    [issubclass] raise TypeError inside the [try] block of the type checker,
    and the [except] clause answers with the equality of the two
    descriptors, which is True. *)
Lemma C1_failure_yields_true :
  is_compatible_body demo_issubclass
    (is_compatible_with_unification demo_issubclass) t_Proto t_Proto ∅
    = (Raise TypeError, ∅) ∧
  is_compatible_with_unification demo_issubclass t_Proto t_Proto ∅
    = (Ok true, ∅).
Proof. split; reflexivity. Qed.

(** C1, amended: a TypeError or AttributeError raised inside the type
    checker is caught and the call answers with the equality of the two
    descriptors (True for equal descriptors, False otherwise); an exception
    of a class that clause does not name leaves the call. A TypeError,
    ValueError or AttributeError raised inside the method checker is caught
    and the call answers False. So each call returns True or False whenever
    every exception the introspection raises is of a class that the clause
    of that call names. *)
Theorem C1_failures_absorbed (issubclass : string → string → result bool) :
  (∀ actual expected m,
     (∀ x m1,
        is_compatible_body issubclass
          (is_compatible_with_unification issubclass) actual expected m
          = (Raise x, m1) →
        x ∈ [TypeError; AttributeError] →
        is_compatible_with_unification issubclass actual expected m
          = (Ok (ty_eqb actual expected), m1)) ∧
     (∀ x m1,
        is_compatible_body issubclass
          (is_compatible_with_unification issubclass) actual expected m
          = (Raise x, m1) →
        x ∉ [TypeError; AttributeError] →
        is_compatible_with_unification issubclass actual expected m
          = (Raise x, m1)) ∧
     ((∀ ca ce x, issubclass ca ce = Raise x →
                  x ∈ [TypeError; AttributeError]) →
      ∃ b m', is_compatible_with_unification issubclass actual expected m
                = (Ok b, m'))) ∧
  (∀ am pm m,
     (∀ x m1,
        are_compatible_body issubclass am pm m = (Raise x, m1) →
        x ∈ [TypeError; ValueError; AttributeError] →
        are_compatible_with_unification issubclass am pm m
          = (Ok false, m1)) ∧
     ((∀ ca ce x, issubclass ca ce = Raise x →
                  x ∈ [TypeError; ValueError; AttributeError]) →
      (∀ x, m_signature am = Raise x →
            x ∈ [TypeError; ValueError; AttributeError]) →
      (∀ x, protocol_signature pm = Raise x →
            x ∈ [TypeError; ValueError; AttributeError]) →
      ∃ b m', are_compatible_with_unification issubclass am pm m
                = (Ok b, m'))).
Proof.
  split.
  - intros actual expected m. split_and!.
    + intros x m1 Hbody Hx. rewrite is_compatible_with_unification_eq.
      unfold try_except. rewrite Hbody.
      destruct x; try done. set_solver.
    + intros x m1 Hbody Hx. rewrite is_compatible_with_unification_eq.
      unfold try_except. rewrite Hbody.
      destruct x; try done; set_solver.
    + intros Hsub. apply is_compat_returns. intros ca ce Hraise.
      apply Hsub in Hraise. set_solver.
  - intros am pm m. split.
    + intros x m1 Hbody _. rewrite are_compat_of_body. by rewrite Hbody.
    + intros _ _ _. apply are_compat_returns.
Qed.

Lemma demo_issubclass_raises (ca ce : string) (x : exn) :
  demo_issubclass ca ce = Raise x → x ∈ [TypeError; AttributeError].
Proof.
  unfold demo_issubclass. destruct (String.eqb ce "Proto"); [|done].
  intros [= <-]. set_solver.
Qed.

(** The class [Proto] against itself; an [issubclass] that raises
    ValueError; [bool] against [int]; a candidate whose signature cannot be
    read. *)
Lemma C1_failures_absorbed_witness :
  is_compatible_with_unification demo_issubclass t_Proto t_Proto ∅
    = (Ok (ty_eqb t_Proto t_Proto), ∅) ∧
  is_compatible_with_unification (λ _ _, Raise ValueError) t_bool t_int ∅
    = (Raise ValueError, ∅) ∧
  (∃ b m', is_compatible_with_unification demo_issubclass t_bool t_int ∅
             = (Ok b, m')) ∧
  are_compatible_with_unification demo_issubclass
    (Method (Raise ValueError) ∅ false None) process_protocol ∅
    = (Ok false, ∅).
Proof.
  destruct (C1_failures_absorbed demo_issubclass) as [Htype Hmethod].
  destruct (C1_failures_absorbed (λ _ _, Raise ValueError)) as [Hvalue _].
  split_and!.
  - apply (Htype t_Proto t_Proto ∅) with (x := TypeError);
      [reflexivity | set_solver].
  - apply (Hvalue t_bool t_int ∅); [reflexivity | set_solver].
  - apply (Htype t_bool t_int ∅). apply demo_issubclass_raises.
  - apply (Hmethod (Method (Raise ValueError) ∅ false None)
             process_protocol ∅) with (x := ValueError);
      [reflexivity | set_solver].
Defined.

(** The [except] clause of the type checker does not name ValueError: an
    [issubclass] that raises it is not absorbed there, but it is by the
    method checker, whose clause names it. *)
Example value_error_is_left_to_the_method_checker :
  is_compatible_with_unification (λ _ _, Raise ValueError) t_bool t_int ∅
    = (Raise ValueError, ∅) ∧
  are_compatible_with_unification (λ _ _, Raise ValueError)
    validate_bool validate_protocol ∅ = (Ok false, ∅).
Proof. split; reflexivity. Qed.

(** ** C2: the declared return type *)

(** When the lookup of the protocol's return annotation is not the None
    object, a True answer means that the candidate's lookup is not None
    either and that the type checker accepted the pair in the context the
    parameter checks left behind. *)
Lemma declared_return_is_checked
    (issubclass : string → string → result bool) (am pm : method)
    (m m' : gmap string ty) :
  are_compatible_with_unification issubclass am pm m = (Ok true, m') →
  declares (m_annotations pm) "return" →
  declares (m_annotations am) "return" ∧
  ∃ m1, m ⊆ m1 ∧
    is_compatible_with_unification issubclass
      (dict_get (m_annotations am) "return")
      (dict_get (m_annotations pm) "return") m1 = (Ok true, m').
Proof.
  intros Hok Hdecl.
  apply are_compat_true_inv in Hok
    as (xs & ys & m1 & _ & _ & _ & _ & Hcp & Hret).
  unfold declares in *.
  destruct (dict_get (m_annotations pm) "return") eqn:Hp; try done;
    simpl in Hret; destruct Hret as [Ha Hc];
    (split; [by destruct (dict_get (m_annotations am) "return") |]);
    exists m1; (split; [|done]);
    pose proof (check_params_extends issubclass (m_annotations am)
                  (m_annotations pm) xs ys m) as Hext;
    by rewrite Hcp in Hext.
Qed.

(** C2 at the failing input: the protocol method is
    [def notify(self, message: str) -> None] and the candidate is
    [def notify(self, message: str) -> int]. The type checker rejects [int]
    against [None], yet the method checker answers True: the lookup of a
    return annotated [None] is the None object, which the code reads as
    "no return annotation", so the return is never compared. *)
Theorem C2_none_return_unchecked :
  is_compatible_with_unification demo_issubclass t_int TNone ∅
    = (Ok false, ∅) ∧
  are_compatible_with_unification demo_issubclass
    notify_returning_int notify_protocol ∅ = (Ok true, ∅).
Proof. split; reflexivity. Qed.

(** The same reading on the candidate's side: the candidate
    [def process(self, item: str) -> None] is rejected against
    [def process(self, item: T) -> T] as if it declared no return. *)
Example none_return_of_candidate_reads_as_missing :
  are_compatible_with_unification demo_issubclass
    process_returning_none process_generic ∅
    = (Ok false, {["T" := t_str]}).
Proof. reflexivity. Qed.

(** ** C3: unification of a TypeVar *)

(** C3: for an expected TypeVar that is bound, the check leaves the context
    alone and succeeds exactly when the actual type is the bound one; for an
    unbound one it binds it to the actual type and succeeds; and after a
    successful check every later check of that TypeVar, in any context grown
    from the resulting one, succeeds exactly for the identical type. *)
Theorem C3_typevar_unification
    (issubclass : string → string → result bool)
    (actual : ty) (v : string) (m : gmap string ty) :
  (∀ bound, m !! v = Some bound →
     ∃ b, is_compatible_with_unification issubclass actual (TVar v) m
            = (Ok b, m) ∧
          (b = true ↔ actual = bound)) ∧
  (m !! v = None →
     is_compatible_with_unification issubclass actual (TVar v) m
       = (Ok true, <[v := actual]> m)) ∧
  (∀ m', is_compatible_with_unification issubclass actual (TVar v) m
           = (Ok true, m') →
     m' !! v = Some actual ∧
     ∀ later m'', m' ⊆ m'' →
       ∃ b, is_compatible_with_unification issubclass later (TVar v) m''
              = (Ok b, m'') ∧
            (b = true ↔ later = actual)).
Proof.
  assert (Hbound : ∀ (a bound : ty) (k : gmap string ty),
            k !! v = Some bound →
            ∃ b, is_compatible_with_unification issubclass a (TVar v) k
                   = (Ok b, k) ∧ (b = true ↔ a = bound)).
  { intros a bound k Hk. rewrite is_compat_TVar, Hk.
    eexists; split; [done|]. rewrite ty_eqb_eq. naive_solver. }
  split; [|split].
  - intros bound Hm. by apply Hbound.
  - intros Hm. by rewrite is_compat_TVar, Hm.
  - intros m' Hok. rewrite is_compat_TVar in Hok.
    assert (Hm' : m' !! v = Some actual).
    { destruct (m !! v) as [bound|] eqn:Hm.
      - injection Hok as Hb <-. apply ty_eqb_eq in Hb. congruence.
      - injection Hok as <-. apply lookup_insert_eq. }
    split; [done|]. intros later m'' Hsub. apply Hbound.
    by eapply lookup_weaken.
Qed.

Lemma C3_typevar_unification_witness :
  (∃ b, is_compatible_with_unification demo_issubclass t_bool t_T
          {["T" := t_int]} = (Ok b, {["T" := t_int]}) ∧
        (b = true ↔ t_bool = t_int)) ∧
  is_compatible_with_unification demo_issubclass t_str t_T ∅
    = (Ok true, {["T" := t_str]}) ∧
  ∃ b, is_compatible_with_unification demo_issubclass t_int t_T
         (<["U" := t_bytes]> {["T" := t_str]})
         = (Ok b, <["U" := t_bytes]> {["T" := t_str]}) ∧
       (b = true ↔ t_int = t_str).
Proof.
  split; [|split].
  - apply (C3_typevar_unification demo_issubclass t_bool "T" {["T" := t_int]}).
    reflexivity.
  - apply (C3_typevar_unification demo_issubclass t_str "T" ∅). reflexivity.
  - apply (C3_typevar_unification demo_issubclass t_str "T" ∅)
      with (m' := {["T" := t_str]}); [reflexivity|].
    apply insert_subseteq. reflexivity.
Defined.

(** Exact equality, not subclass compatibility: with [T] bound to [int], a
    [bool] is rejected although [bool] is accepted where [int] is expected. *)
Example bound_typevar_rejects_subclass :
  is_compatible_with_unification demo_issubclass t_bool t_int ∅
    = (Ok true, ∅) ∧
  is_compatible_with_unification demo_issubclass t_bool t_T {["T" := t_int]}
    = (Ok false, {["T" := t_int]}).
Proof. split; reflexivity. Qed.

(** ** C4: generic origin and arguments *)

Lemma pairs_unify_length (issubclass : string → string → result bool)
    (xs ys : list ty) (m m' : gmap string ty) :
  pairs_unify issubclass xs ys m m' → length xs = length ys.
Proof. induction 1; simpl; congruence. Qed.

(** The [all(...)] over the zipped arguments is True exactly when the pairs
    unify one after the other. *)
Lemma all_zip_true_iff (issubclass : string → string → result bool)
    (xs ys : list ty) (m m' : gmap string ty) :
  length xs = length ys →
  all_zip (is_compatible_with_unification issubclass) xs ys m = (Ok true, m')
  ↔ pairs_unify issubclass xs ys m m'.
Proof.
  revert ys m. induction xs as [|a xs IH]; intros [|e ys] m Hlen;
    simpl in *; try done.
  - unfold ret. split.
    + intros [= <-]. constructor.
    + inversion 1. done.
  - unfold bind.
    destruct (is_compatible_with_unification issubclass a e m)
      as [[[]|x] m1] eqn:Ha.
    + rewrite IH by lia. split.
      * intros H. by econstructor.
      * inversion 1; subst. congruence.
    + split; [done|]. inversion 1; subst. congruence.
    + split; [done|]. inversion 1; subst. congruence.
Qed.

(** C4: for an expected type that is no TypeVar, when either side has an
    origin: differing origins give False, differing argument counts give
    False (both without touching the context), otherwise the call is the
    [all(...)] of the recursive calls over the argument pairs in order, each
    in the context its predecessor left; so the answer is True exactly when
    the origins agree and the argument pairs unify in the shared context. *)
Theorem C4_generic_structure (issubclass : string → string → result bool)
    (actual expected : ty) (m : gmap string ty) :
  isinstance_TypeVar expected = false →
  get_origin actual ≠ None ∨ get_origin expected ≠ None →
  (get_origin actual ≠ get_origin expected →
     is_compatible_with_unification issubclass actual expected m
       = (Ok false, m)) ∧
  (length (get_args actual) ≠ length (get_args expected) →
     is_compatible_with_unification issubclass actual expected m
       = (Ok false, m)) ∧
  (get_origin actual = get_origin expected →
   length (get_args actual) = length (get_args expected) →
     is_compatible_with_unification issubclass actual expected m
       = all_zip (is_compatible_with_unification issubclass)
           (get_args actual) (get_args expected) m) ∧
  (∀ m', is_compatible_with_unification issubclass actual expected m
           = (Ok true, m')
         ↔ get_origin actual = get_origin expected ∧
           pairs_unify issubclass (get_args actual) (get_args expected) m m').
Proof.
  intros Hv Horigin.
  destruct (get_origin expected) as [eo|] eqn:He.
  - destruct expected as [w|c|o args| |s]; try done.
    injection He as ->. cbn [get_origin get_args].
    assert (Heq : ∀ b : bool,
              origin_eqb (get_origin actual) (Some eo) = b →
              (b = true ↔ get_origin actual = Some eo)).
    { intros b <-. unfold origin_eqb. apply bool_decide_eq_true. }
    rewrite is_compat_generic_expected.
    destruct (origin_eqb (get_origin actual) (Some eo)) eqn:Ho;
      specialize (Heq _ eq_refl); simpl.
    + assert (Hao : get_origin actual = Some eo) by by apply Heq.
      destruct (length (get_args actual) =? length args) eqn:Hlen; simpl.
      * apply Nat.eqb_eq in Hlen. split_and!; try done.
        intros m'. rewrite all_zip_true_iff by done.
        split; [by intros ? | by intros [_ ?]].
      * apply Nat.eqb_neq in Hlen. split_and!; try done.
        intros m'. split; [done|].
        intros [_ H]. by apply pairs_unify_length in H.
    + assert (Hao : get_origin actual ≠ Some eo).
      { intros H. apply Heq in H. done. }
      split_and!; try done.
      intros m'. split; [done|]. by intros [H _].
  - assert (Ha : get_origin actual ≠ None) by by destruct Horigin.
    rewrite is_compat_generic_actual by done.
    split_and!; try done.
    intros m'. split; [done|]. by intros [H _].
Qed.

(** [dict[str, int]] against [dict[T, T]]: the second argument meets the
    binding the first one made. *)
Lemma C4_generic_structure_witness :
  is_compatible_with_unification demo_issubclass
    (t_dict t_str t_int) (t_dict t_T t_T) ∅
  = all_zip (is_compatible_with_unification demo_issubclass)
      [t_str; t_int] [t_T; t_T] ∅ ∧
  is_compatible_with_unification demo_issubclass
    (t_list t_int) (t_dict t_T t_T) ∅ = (Ok false, ∅) ∧
  is_compatible_with_unification demo_issubclass
    (TGeneric "dict" []) (t_dict t_T t_T) ∅ = (Ok false, ∅) ∧
  is_compatible_with_unification demo_issubclass
    (t_list t_int) t_int ∅ = (Ok false, ∅).
Proof.
  split; [|split; [|split]].
  - apply (C4_generic_structure demo_issubclass
             (t_dict t_str t_int) (t_dict t_T t_T) ∅); try done.
    by left.
  - apply (C4_generic_structure demo_issubclass
             (t_list t_int) (t_dict t_T t_T) ∅); try done.
    by left.
  - apply (C4_generic_structure demo_issubclass
             (TGeneric "dict" []) (t_dict t_T t_T) ∅); try done.
    by left.
  - apply (C4_generic_structure demo_issubclass (t_list t_int) t_int ∅);
      try done.
    by left.
Defined.

(** TypeVars inside generic arguments share the context with the ones
    outside: [dict[str, str]] unifies with [dict[T, T]] and binds [T];
    [dict[str, int]] does not; and with [T] already bound to [int] a
    [list[str]] is rejected against [list[T]]. *)
Example nested_typevars_share_the_context :
  is_compatible_with_unification demo_issubclass
    (t_dict t_str t_str) (t_dict t_T t_T) ∅ = (Ok true, {["T" := t_str]}) ∧
  is_compatible_with_unification demo_issubclass
    (t_dict t_str t_int) (t_dict t_T t_T) ∅ = (Ok false, {["T" := t_str]}) ∧
  is_compatible_with_unification demo_issubclass
    (t_list t_str) (t_list t_T) {["T" := t_int]}
    = (Ok false, {["T" := t_int]}).
Proof. repeat split; reflexivity. Qed.

(** ** C5, C7 and C10: arity, names and async-ness *)







(** C10: the names that are compared are those of the whole signature,
    receiver first; when the first names differ the method checker answers
    False at the first step of the loop at the latest, whatever the types,
    and the context is left as it was. *)
Theorem C10_receiver_participates
    (issubclass : string → string → result bool) (am pm : method)
    (m : gmap string ty) (ra rp : string) (rest_a rest_p : list string) :
  m_signature am = Ok (ra :: rest_a) →
  protocol_signature pm = Ok (rp :: rest_p) →
  ra ≠ rp →
  are_compatible_with_unification issubclass am pm m = (Ok false, m).
Proof.
  intros Ha Hp Hne. rewrite are_compat_of_body.
  unfold are_compatible_body, bind, lift, ret. rewrite Ha, Hp.
  destruct (negb (Bool.eqb _ _)); [done|].
  destruct (negb (_ =? _)); [done|].
  simpl. apply String.eqb_neq in Hne. by rewrite Hne.
Qed.

(** [def process(this, data: bytes) -> str] against
    [def process(self, data: bytes) -> str]. *)
Lemma C10_receiver_participates_witness :
  are_compatible_with_unification demo_issubclass
    process_this process_protocol ∅ = (Ok false, ∅).
Proof.
  apply (C10_receiver_participates demo_issubclass process_this
           process_protocol ∅ "this" "self" ["data"] ["data"]);
    [reflexivity | reflexivity | discriminate].
Defined.

(** ** C6: the declared parameter types *)

(** A loop that ran to its end compared equal names at every position and,
    where the protocol declares a type, found one on the candidate that the
    type checker accepted. *)
Lemma check_params_true_inv (issubclass : string → string → result bool)
    (aa pa : gmap string ty) (xs ys : list string) (m m' : gmap string ty)
    (i : nat) (q p : string) :
  check_params issubclass aa pa xs ys m = (Ok true, m') →
  xs !! i = Some q → ys !! i = Some p →
  q = p ∧
  (declares pa p →
   declares aa p ∧
   ∃ m1 m2, m ⊆ m1 ∧ m2 ⊆ m' ∧
     is_compatible_with_unification issubclass
       (dict_get aa p) (dict_get pa p) m1 = (Ok true, m2)).
Proof.
  revert ys m i. induction xs as [|x xs IH]; intros [|y ys] m i Hok Hx Hy;
    try done.
  simpl in Hok. destruct (String.eqb x y) eqn:Hxy; simpl in Hok; [|done].
  apply String.eqb_eq in Hxy as ->. unfold declares.
  destruct (is_None (dict_get pa y)) eqn:Hpy; simpl in Hok.
  - destruct i as [|i]; simpl in Hx, Hy.
    + injection Hx as <-. injection Hy as <-. split; [done|].
      intros Hd. by destruct (dict_get pa y).
    + by eapply IH.
  - destruct (is_None (dict_get aa y)) eqn:Hay; [done|].
    unfold bind in Hok.
    destruct (is_compatible_with_unification issubclass _ _ m)
      as [[[]|e] m1] eqn:Hc; simpl in Hok; try done.
    pose proof (is_compat_extends issubclass (dict_get aa y)
                  (dict_get pa y) m) as Hm1. rewrite Hc in Hm1.
    pose proof (check_params_extends issubclass aa pa xs ys m1) as Hm'.
    rewrite Hok in Hm'. simpl in Hm1, Hm'.
    destruct i as [|i]; simpl in Hx, Hy.
    + injection Hx as <-. injection Hy as <-. split; [done|]. intros _.
      split; [by destruct (dict_get aa y)|].
      by exists m, m1.
    + destruct (IH ys m1 i Hok Hx Hy) as [-> Hrest]. split; [done|].
      intros Hd. destruct (Hrest Hd) as (Hda & k1 & k2 & Hk1 & Hk2 & Hk).
      split; [done|]. exists k1, k2. split_and!; try done. by etrans.
Qed.

(** The loop reads the candidate's annotations only at names for which the
    protocol declares a type. *)
Lemma check_params_agree (issubclass : string → string → result bool)
    (aa aa' pa : gmap string ty) (xs ys : list string) (m : gmap string ty) :
  (∀ k, declares pa k → dict_get aa' k = dict_get aa k) →
  check_params issubclass aa' pa xs ys m
  = check_params issubclass aa pa xs ys m.
Proof.
  intros Hagree. revert ys m.
  induction xs as [|x xs IH]; intros [|y ys] m; try done.
  simpl. destruct (String.eqb x y) eqn:Hxy; simpl; [|done].
  apply String.eqb_eq in Hxy as ->.
  destruct (is_None (dict_get pa y)) eqn:Hpy; simpl; [apply IH|].
  rewrite Hagree by (unfold declares; by destruct (dict_get pa y)).
  destruct (is_None (dict_get aa y)); [done|].
  unfold bind.
  destruct (is_compatible_with_unification issubclass _ _ m)
    as [[[]|e] m1]; simpl; done.
Qed.

(** Where the protocol's annotation of a parameter is not the None object:
    if the method checker answers True then the candidate has an annotation
    other than None under the same name and the type checker accepted the
    pair in a context between the one the call started with and the one it
    left; and two candidates that differ only in annotations for names at
    which the protocol's lookup is the None object get the same answer. *)
Theorem typed_parameters_are_checked
    (issubclass : string → string → result bool)
    (am pm : method) (m : gmap string ty) :
  (∀ m' names_a names_p i p,
     are_compatible_with_unification issubclass am pm m = (Ok true, m') →
     m_signature am = Ok names_a →
     protocol_signature pm = Ok names_p →
     names_p !! i = Some p →
     declares (m_annotations pm) p →
     names_a !! i = Some p ∧
     declares (m_annotations am) p ∧
     ∃ m1 m2, m ⊆ m1 ∧ m2 ⊆ m' ∧
       is_compatible_with_unification issubclass
         (dict_get (m_annotations am) p) (dict_get (m_annotations pm) p) m1
         = (Ok true, m2)) ∧
  (∀ am',
     m_signature am' = m_signature am →
     m_iscoroutine am' = m_iscoroutine am →
     (∀ k, declares (m_annotations pm) k →
           dict_get (m_annotations am') k = dict_get (m_annotations am) k) →
     are_compatible_with_unification issubclass am' pm m
     = are_compatible_with_unification issubclass am pm m).
Proof.
  split.
  - intros m' names_a names_p i p Hok Ha Hp Hi Hd.
    apply are_compat_true_inv in Hok
      as (xs & ys & m1 & Hxs & Hys & _ & Hlen & Hcp & Hret).
    rewrite Ha in Hxs. injection Hxs as <-.
    rewrite Hp in Hys. injection Hys as <-.
    assert (Hq : ∃ q, names_a !! i = Some q).
    { apply lookup_lt_is_Some. rewrite Hlen. by eapply lookup_lt_Some. }
    destruct Hq as [q Hq].
    destruct (check_params_true_inv issubclass _ _ _ _ _ _ i q p Hcp Hq Hi)
      as [-> Hrest].
    split; [done|].
    destruct (Hrest Hd) as (Hda & k1 & k2 & Hk1 & Hk2 & Hk).
    split; [done|]. exists k1, k2. split_and!; try done.
    etrans; [exact Hk2|].
    destruct (is_None (dict_get (m_annotations pm) "return")).
    + by subst.
    + destruct Hret as [_ Hret].
      pose proof (is_compat_extends issubclass
                    (dict_get (m_annotations am) "return")
                    (dict_get (m_annotations pm) "return") m1) as Hext.
      by rewrite Hret in Hext.
  - intros am' Hsig Hco Hagree.
    unfold are_compatible_with_unification, try_except.
    assert (Hbody : are_compatible_body issubclass am' pm m
                    = are_compatible_body issubclass am pm m).
    { unfold are_compatible_body, bind, lift, ret. rewrite Hsig, Hco.
      destruct (m_signature am) as [xs|e]; [|done].
      destruct (protocol_signature pm) as [ys|e]; [|done].
      destruct (negb (Bool.eqb _ _)); [done|].
      destruct (negb (_ =? _)); [done|].
      rewrite (check_params_agree issubclass (m_annotations am)
                 (m_annotations am') (m_annotations pm)) by done.
      destruct (check_params _ _ _ _ _ m) as [[[]|e] m1]; simpl; try done.
      destruct (is_None (dict_get (m_annotations pm) "return")) eqn:Hr;
        simpl; [done|].
      rewrite Hagree by (unfold declares; by destruct (dict_get _ "return")).
      done. }
    by rewrite Hbody.
Qed.

(** The protocol method is [def convert(self, source, target: T) -> T] and
    the candidate [def convert(self, source: bytes, target: str) -> str];
    dropping the candidate's annotation of [source] changes nothing. *)
Lemma typed_parameters_are_checked_witness :
  (declares (m_annotations convert_candidate) "target" ∧
   ∃ m1 m2, ∅ ⊆ m1 ∧ m2 ⊆ {["T" := t_str]} ∧
     is_compatible_with_unification demo_issubclass t_str t_T m1
       = (Ok true, m2)) ∧
  are_compatible_with_unification demo_issubclass
    (def ["self"; "source"; "target"]
         [("target", t_str); ("return", t_str)]) convert_protocol ∅
  = are_compatible_with_unification demo_issubclass
      convert_candidate convert_protocol ∅.
Proof.
  destruct (typed_parameters_are_checked demo_issubclass convert_candidate
              convert_protocol ∅) as [Htyped Huntyped].
  split.
  - apply (Htyped {["T" := t_str]} ["self"; "source"; "target"]
             ["self"; "source"; "target"] 2 "target");
      try reflexivity.
    discriminate.
  - apply Huntyped; try reflexivity.
    intros k Hk. unfold declares, dict_get in *. simpl in *.
    destruct (decide (k = "source")) as [->|Hne]; [done|].
    by rewrite !(lookup_insert_ne _ "source" k) by done.
Defined.

(** C6 at the failing input: the protocol method is
    [def check(self, x: None) -> int] and the candidate is
    [def check(self, x: str) -> int]. The protocol declares the type [None]
    for [x], and the type checker rejects [str] against it, yet the method
    checker answers True: the lookup of an annotation [None] is the None
    object, which the code reads as "no annotation", so the parameter is
    never compared. This is the defect of C2, met at a parameter. *)
Theorem C6_none_parameter_unchecked :
  m_annotations none_parameter_protocol !! "x" = Some TNone ∧
  is_compatible_with_unification demo_issubclass t_str TNone ∅
    = (Ok false, ∅) ∧
  are_compatible_with_unification demo_issubclass
    none_parameter_candidate none_parameter_protocol ∅ = (Ok true, ∅).
Proof. split_and!; reflexivity. Qed.

(** ** C8: plain classes and other descriptors *)

(** C8, as stated, fails: the code never compares two classes for
    equality, it returns what [issubclass] answers. For the class [Strict],
    whose metaclass answers False to every class check, the actual class
    equals the expected class and the call answers False. *)
Lemma C8_equal_classes_rejected :
  t_Strict = t_Strict ∧
  is_compatible_with_unification strict_issubclass t_Strict t_Strict ∅
    = (Ok false, ∅).
Proof. split; reflexivity. Qed.

(** C8, amended: for an expected type that is no TypeVar, when neither side
    has an origin, the context is left alone and
    - for two classes the answer is the one [issubclass] gives (with
      Python's own class check: True exactly when the actual class is the
      expected one or a subclass of it, as [bool] where [int] is expected);
      when [issubclass] raises TypeError or AttributeError the answer is
      the equality of the two classes, and an exception of another class
      leaves the call;
    - otherwise the two descriptors are compatible exactly when they are
      equal. *)
Theorem C8_plain_types (issubclass : string → string → result bool)
    (actual expected : ty) (m : gmap string ty) :
  isinstance_TypeVar expected = false →
  get_origin actual = None →
  get_origin expected = None →
  (∀ ca ce,
     actual = TClass ca → expected = TClass ce →
     (∀ b, issubclass ca ce = Ok b →
        is_compatible_with_unification issubclass actual expected m
          = (Ok b, m)) ∧
     (∀ x, issubclass ca ce = Raise x →
        x ∈ [TypeError; AttributeError] →
        ∃ b, is_compatible_with_unification issubclass actual expected m
               = (Ok b, m) ∧
             (b = true ↔ actual = expected)) ∧
     (∀ x, issubclass ca ce = Raise x →
        x ∉ [TypeError; AttributeError] →
        is_compatible_with_unification issubclass actual expected m
          = (Raise x, m))) ∧
  (isclass actual && isclass expected = false →
     ∃ b, is_compatible_with_unification issubclass actual expected m
            = (Ok b, m) ∧
          (b = true ↔ actual = expected)).
Proof.
  intros Hv Ha He. split.
  - intros ca ce -> ->. rewrite is_compat_classes. split_and!.
    + by intros b ->.
    + intros x -> Hx. exists (ty_eqb (TClass ca) (TClass ce)). split.
      * destruct x; try done. set_solver.
      * apply ty_eqb_eq.
    + intros x -> Hx. destruct x; try done; set_solver.
  - intros Hc. rewrite is_compat_plain by done.
    eexists; split; [done|]. apply ty_eqb_eq.
Qed.

(** [bool] where [int] is expected; [int] where [bool] is expected; the
    class [Proto], whose class check raises TypeError, against itself; the
    None object against itself. *)
Lemma C8_plain_types_witness :
  is_compatible_with_unification demo_issubclass t_bool t_int ∅
    = (Ok true, ∅) ∧
  is_compatible_with_unification demo_issubclass t_int t_bool ∅
    = (Ok false, ∅) ∧
  (∃ b, is_compatible_with_unification demo_issubclass t_Proto t_Proto ∅
          = (Ok b, ∅) ∧ (b = true ↔ t_Proto = t_Proto)) ∧
  (∃ b, is_compatible_with_unification demo_issubclass TNone TNone ∅
          = (Ok b, ∅) ∧ (b = true ↔ TNone = TNone)).
Proof.
  split_and!.
  - destruct (C8_plain_types demo_issubclass t_bool t_int ∅
                eq_refl eq_refl eq_refl) as [Hclasses _].
    destruct (Hclasses "bool" "int" eq_refl eq_refl) as (Hanswer & _ & _).
    apply Hanswer. reflexivity.
  - destruct (C8_plain_types demo_issubclass t_int t_bool ∅
                eq_refl eq_refl eq_refl) as [Hclasses _].
    destruct (Hclasses "int" "bool" eq_refl eq_refl) as (Hanswer & _ & _).
    apply Hanswer. reflexivity.
  - destruct (C8_plain_types demo_issubclass t_Proto t_Proto ∅
                eq_refl eq_refl eq_refl) as [Hclasses _].
    destruct (Hclasses "Proto" "Proto" eq_refl eq_refl) as (_ & Hcaught & _).
    apply (Hcaught TypeError); [reflexivity | set_solver].
  - destruct (C8_plain_types demo_issubclass TNone TNone ∅
                eq_refl eq_refl eq_refl) as [_ Hother].
    apply Hother. reflexivity.
Defined.

Example bool_where_int_is_expected :
  is_compatible demo_issubclass t_bool t_int = Ok true ∧
  is_compatible demo_issubclass t_int t_bool = Ok false ∧
  is_compatible demo_issubclass t_int t_int = Ok true ∧
  is_compatible demo_issubclass (TOther "Any") (TOther "Any") = Ok true ∧
  is_compatible demo_issubclass TNone t_int = Ok false.
Proof. repeat split; reflexivity. Qed.

(** ** C9: the binding context only grows *)

(** What the [all(...)] over the first [i] argument pairs left in the
    context is still there after the [all(...)] over all of them. *)
Lemma all_zip_take_extends (issubclass : string → string → result bool)
    (xs ys : list ty) (i : nat) (m : gmap string ty) :
  (all_zip (is_compatible_with_unification issubclass)
     (take i xs) (take i ys) m).2
  ⊆ (all_zip (is_compatible_with_unification issubclass) xs ys m).2.
Proof.
  revert xs ys m. induction i as [|i IH]; intros xs ys m.
  - rewrite !take_0. apply all_zip_extends, Forall_forall.
    intros e _ a k. apply is_compat_extends.
  - destruct xs as [|a xs], ys as [|e ys]; simpl; try done.
    unfold bind.
    destruct (is_compatible_with_unification issubclass a e m)
      as [[[]|x] m1]; simpl; [apply IH | done..].
Qed.

(** The same for the loop over the parameters. *)
Lemma check_params_take_extends
    (issubclass : string → string → result bool) (aa pa : gmap string ty)
    (xs ys : list string) (i : nat) (m : gmap string ty) :
  (check_params issubclass aa pa (take i xs) (take i ys) m).2
  ⊆ (check_params issubclass aa pa xs ys m).2.
Proof.
  revert xs ys m. induction i as [|i IH]; intros xs ys m.
  - rewrite !take_0. apply check_params_extends.
  - destruct xs as [|x xs], ys as [|y ys]; simpl; try done.
    destruct (negb (String.eqb x y)); [done|].
    destruct (negb (is_None (dict_get pa y))); [|apply IH].
    destruct (is_None (dict_get aa x)); [done|].
    unfold bind.
    destruct (is_compatible_with_unification issubclass _ _ m)
      as [[[]|e] m1]; simpl; [apply IH | done..].
Qed.

(** C9: a binding that is in the context before a call of the type checker
    or of the method checker is in the context after it, with the same
    value, whatever the answer. Bindings made on the way persist as well:
    what the checks of the first [i] argument pairs of a generic type left
    in the context, and what the loop over the first [i] parameters of a
    method left in it, is included in the context the whole call leaves,
    whatever the later arguments, the later parameters and the return
    answer. *)
Theorem C9_context_only_grows (issubclass : string → string → result bool) :
  (∀ actual expected m v t,
     m !! v = Some t →
     (is_compatible_with_unification issubclass actual expected m).2 !! v
       = Some t) ∧
  (∀ am pm m v t,
     m !! v = Some t →
     (are_compatible_with_unification issubclass am pm m).2 !! v = Some t) ∧
  (∀ o xs ys i m,
     length xs = length ys →
     (all_zip (is_compatible_with_unification issubclass)
        (take i xs) (take i ys) m).2
     ⊆ (is_compatible_with_unification issubclass
          (TGeneric o xs) (TGeneric o ys) m).2) ∧
  (∀ am pm names_a names_p i m,
     m_signature am = Ok names_a →
     protocol_signature pm = Ok names_p →
     m_iscoroutine am = m_iscoroutine pm →
     length names_a = length names_p →
     (check_params issubclass (m_annotations am) (m_annotations pm)
        (take i names_a) (take i names_p) m).2
     ⊆ (are_compatible_with_unification issubclass am pm m).2).
Proof.
  split_and!.
  - intros actual expected m v t Hv.
    eapply lookup_weaken; [exact Hv | apply is_compat_extends].
  - intros am pm m v t Hv.
    eapply lookup_weaken; [exact Hv | apply are_compat_extends].
  - intros o xs ys i m Hlen. rewrite is_compat_generic_expected.
    cbn [get_origin get_args]. unfold origin_eqb.
    rewrite bool_decide_eq_true_2 by done. rewrite Hlen, Nat.eqb_refl.
    simpl. apply all_zip_take_extends.
  - intros am pm names_a names_p i m Ha Hp Hco Hlen.
    rewrite are_compat_of_body.
    unfold are_compatible_body, bind, lift, ret.
    rewrite Ha, Hp, Hco, Bool.eqb_reflx, Hlen, Nat.eqb_refl. simpl.
    pose proof (check_params_take_extends issubclass (m_annotations am)
                  (m_annotations pm) names_a names_p i m) as Hprefix.
    destruct (check_params issubclass (m_annotations am) (m_annotations pm)
                names_a names_p m) as [[[]|e] m1]; simpl in *; try done.
    destruct (negb (is_None _)); [|done].
    destruct (is_None _); [done|].
    pose proof (is_compat_extends issubclass
                  (dict_get (m_annotations am) "return")
                  (dict_get (m_annotations pm) "return") m1) as Hret.
    destruct (is_compatible_with_unification issubclass _ _ m1)
      as [[[]|e] m2]; simpl in *; by etrans.
Qed.

(** A failing check of [dict[str, int]] against [dict[T, T]] and a failing
    check of [pair(self, a: str, b: int) -> int] against
    [pair(self, a: T, b: T) -> T] keep the binding of [U] they started
    with; and the binding of [T] that the first argument, or the parameter
    [a], made is still there after the failure. *)
Lemma C9_context_only_grows_witness :
  (is_compatible_with_unification demo_issubclass
     (t_dict t_str t_int) (t_dict t_T t_T) {["U" := t_bytes]}).2 !! "U"
    = Some t_bytes ∧
  (are_compatible_with_unification demo_issubclass
     pair_candidate pair_protocol {["U" := t_bytes]}).2 !! "U"
    = Some t_bytes ∧
  ({["T" := t_str]} : gmap string ty)
  ⊆ (is_compatible_with_unification demo_issubclass
       (t_dict t_str t_int) (t_dict t_T t_T) ∅).2 ∧
  ({["T" := t_str]} : gmap string ty)
  ⊆ (are_compatible_with_unification demo_issubclass
       pair_candidate pair_protocol ∅).2 ∧
  (are_compatible_with_unification demo_issubclass
     pair_candidate pair_protocol ∅).1 = Ok false.
Proof.
  destruct (C9_context_only_grows demo_issubclass)
    as (Htype & Hmethod & Hargs & Hparams).
  split_and!.
  - apply Htype. reflexivity.
  - apply Hmethod. reflexivity.
  - assert (Hprefix :
              (all_zip (is_compatible_with_unification demo_issubclass)
                 (take 1 [t_str; t_int]) (take 1 [t_T; t_T]) ∅).2
              = {["T" := t_str]}) by reflexivity.
    rewrite <- Hprefix.
    apply (Hargs "dict" [t_str; t_int] [t_T; t_T] 1 ∅). reflexivity.
  - assert (Hprefix :
              (check_params demo_issubclass (m_annotations pair_candidate)
                 (m_annotations pair_protocol)
                 (take 2 ["self"; "a"; "b"]) (take 2 ["self"; "a"; "b"]) ∅).2
              = {["T" := t_str]}) by reflexivity.
    rewrite <- Hprefix.
    apply (Hparams pair_candidate pair_protocol
             ["self"; "a"; "b"] ["self"; "a"; "b"] 2 ∅); reflexivity.
  - reflexivity.
Defined.

(** Bindings survive a False answer: the generic check above and a method
    check that fails on the return type both leave [T] bound. *)
Example bindings_survive_a_failed_check :
  is_compatible_with_unification demo_issubclass
    (t_dict t_str t_int) (t_dict t_T t_T) ∅ = (Ok false, {["T" := t_str]}) ∧
  are_compatible_with_unification demo_issubclass
    (def ["self"; "item"] [("item", t_str); ("return", t_int)])
    process_generic ∅ = (Ok false, {["T" := t_str]}).
Proof. split; reflexivity. Qed.

(** ** The scenarios of the test suite *)

(** [process(self, data: bytes) -> str] and
    [validate(self, value: int) -> bool] against themselves, a [str]
    parameter where [bytes] is expected, an [int] return where [str] is
    expected, and a [bool] parameter where [int] is expected. *)
Example service_protocol_scenarios :
  are_compatible demo_issubclass process_protocol process_protocol = Ok true ∧
  are_compatible demo_issubclass
    (def ["self"; "data"] [("data", t_str); ("return", t_str)])
    process_protocol = Ok false ∧
  are_compatible demo_issubclass
    (def ["self"; "data"] [("data", t_bytes); ("return", t_int)])
    process_protocol = Ok false ∧
  are_compatible demo_issubclass validate_bool validate_protocol = Ok true.
Proof. repeat split; reflexivity. Qed.

(** A substituted method is compared by the parameter names of its
    [_original_method] and by its own annotations: here [T] was replaced by
    [str] in the annotations, and the signature of the wrapper itself is
    never asked for. *)
Example substituted_method_scenario :
  are_compatible demo_issubclass
    (def ["self"; "item"] [("item", t_str); ("return", t_str)])
    (Method (Raise TypeError)
       (list_to_map [("item", t_str); ("return", t_str)]) false
       (Some process_generic)) = Ok true ∧
  are_compatible demo_issubclass
    (def ["self"; "item"] [("item", t_int); ("return", t_int)])
    (Method (Raise TypeError)
       (list_to_map [("item", t_str); ("return", t_str)]) false
       (Some process_generic)) = Ok false.
Proof. split; reflexivity. Qed.

(** One context for the members of a generic protocol: [process] binds [T]
    to [str], after which [validate(self, item: int)] is rejected against
    [validate(self, item: T)]. *)
Example typevar_shared_between_methods :
  are_compatible_with_unification demo_issubclass
    (def ["self"; "item"] [("item", t_str); ("return", t_str)])
    process_generic ∅ = (Ok true, {["T" := t_str]}) ∧
  are_compatible_with_unification demo_issubclass
    (def ["self"; "item"] [("item", t_int); ("return", t_bool)])
    (def ["self"; "item"] [("item", t_T); ("return", t_bool)])
    {["T" := t_str]} = (Ok false, {["T" := t_str]}).
Proof. split; reflexivity. Qed.

(** * Further properties of the type checker *)

(** Unification goes one way: a TypeVar on the actual side is an ordinary
    object, so against an expected type that is no TypeVar it is rejected,
    and the context is left alone. *)
Theorem typevar_actual_is_rejected
    (issubclass : string → string → result bool) (v : string)
    (expected : ty) (m : gmap string ty) :
  isinstance_TypeVar expected = false →
  is_compatible_with_unification issubclass (TVar v) expected m
    = (Ok false, m).
Proof.
  intros Hv. destruct expected as [w|c|o args| |s]; try done.
Qed.

Lemma typevar_actual_is_rejected_witness :
  is_compatible_with_unification demo_issubclass t_T (t_list t_T) ∅
    = (Ok false, ∅) ∧
  is_compatible_with_unification demo_issubclass t_T t_int {["T" := t_int]}
    = (Ok false, {["T" := t_int]}).
Proof.
  split.
  - apply (typevar_actual_is_rejected demo_issubclass "T" (t_list t_T) ∅).
    reflexivity.
  - apply (typevar_actual_is_rejected demo_issubclass "T" t_int
             {["T" := t_int]}).
    reflexivity.
Defined.

Lemma typevars_generic_empty (o : string) (args : list ty) :
  typevars (TGeneric o args) = ∅ → Forall (λ e, typevars e = ∅) args.
Proof.
  simpl. rewrite empty_union_list_L, Forall_fmap. done.
Qed.

Lemma all_zip_ground (issubclass : string → string → result bool)
    (xs ys : list ty) (m : gmap string ty) :
  Forall (λ e, ∀ a m,
            is_compatible_with_unification issubclass a e m
            = (is_compatible issubclass a e, m)) ys →
  all_zip (is_compatible_with_unification issubclass) xs ys m
  = ((all_zip (is_compatible_with_unification issubclass) xs ys ∅).1, m).
Proof.
  intros Hys. revert xs m.
  induction Hys as [|e ys He _ IH]; intros [|a xs] m; simpl; try done.
  unfold bind. rewrite (He a m), (He a ∅).
  destruct (is_compatible issubclass a e) as [[]|x]; simpl; [apply IH|done..].
Qed.

Lemma is_compat_ground
    (issubclass : string → string → result bool) (actual expected : ty)
    (m : gmap string ty) :
  typevars expected = ∅ →
  is_compatible_with_unification issubclass actual expected m
    = (is_compatible issubclass actual expected, m).
Proof.
  unfold is_compatible. revert actual m.
  induction expected as [v|c|o args IH| |o] using ty_ind_nested;
    intros actual m Hground.
  - simpl in Hground. set_solver.
  - destruct actual as [w|d|p xs| |p];
      try (rewrite !is_compat_plain by done; done);
      try (rewrite !is_compat_generic_actual by done; done).
    rewrite !is_compat_classes. by destruct (issubclass d c) as [b|[]].
  - rewrite !is_compat_generic_expected.
    destruct (negb _); [done|]. destruct (negb _); [done|].
    apply all_zip_ground.
    apply typevars_generic_empty in Hground.
    rewrite Forall_forall in IH, Hground. apply Forall_forall.
    intros e He a k. by apply IH, Hground.
  - destruct actual as [w|d|p xs| |p];
      try (rewrite !is_compat_plain by done; done);
      try (rewrite !is_compat_generic_actual by done; done).
  - destruct actual as [w|d|p xs| |p];
      try (rewrite !is_compat_plain by done; done);
      try (rewrite !is_compat_generic_actual by done; done).
Qed.

(** *** Which TypeVars get bound *)

Lemma all_zip_is_compat_extends (issubclass : string → string → result bool)
    (xs ys : list ty) (m : gmap string ty) :
  m ⊆ (all_zip (is_compatible_with_unification issubclass) xs ys m).2.
Proof.
  apply all_zip_extends, Forall_forall. intros e _ a k.
  apply is_compat_extends.
Qed.

Lemma all_zip_dom (issubclass : string → string → result bool)
    (xs ys : list ty) (m : gmap string ty) :
  Forall (λ e, ∀ a m,
            dom (is_compatible_with_unification issubclass a e m).2
            ⊆ dom m ∪ typevars e) ys →
  dom (all_zip (is_compatible_with_unification issubclass) xs ys m).2
  ⊆ dom m ∪ ⋃ (typevars <$> ys).
Proof.
  intros Hys. revert xs m.
  induction Hys as [|e ys He _ IH]; intros [|a xs] m; simpl;
    try set_solver.
  unfold bind. specialize (He a m).
  destruct (is_compatible_with_unification issubclass a e m)
    as [[[]|x] m1]; simpl in *; [|set_solver..].
  specialize (IH xs m1). set_solver.
Qed.

Lemma is_compat_dom
    (issubclass : string → string → result bool) (actual expected : ty)
    (m : gmap string ty) :
  dom (is_compatible_with_unification issubclass actual expected m).2
  ⊆ dom m ∪ typevars expected.
Proof.
  revert actual m.
  induction expected as [v|c|o args IH| |o] using ty_ind_nested;
    intros actual m.
  - rewrite is_compat_TVar. destruct (m !! v); simpl; [set_solver|].
    rewrite dom_insert_L. set_solver.
  - destruct actual as [w|d|p xs| |p];
      try (rewrite is_compat_plain by done; set_solver);
      try (rewrite is_compat_generic_actual by done; set_solver).
    rewrite is_compat_classes.
    destruct (issubclass d c) as [b|[]]; set_solver.
  - rewrite is_compat_generic_expected.
    destruct (negb _); [set_solver|]. destruct (negb _); [set_solver|].
    by apply all_zip_dom.
  - destruct actual as [w|d|p xs| |p];
      try (rewrite is_compat_plain by done; set_solver);
      try (rewrite is_compat_generic_actual by done; set_solver).
  - destruct actual as [w|d|p xs| |p];
      try (rewrite is_compat_plain by done; set_solver);
      try (rewrite is_compat_generic_actual by done; set_solver).
Qed.

Lemma all_zip_binds (issubclass : string → string → result bool)
    (xs ys : list ty) (m m' : gmap string ty) :
  Forall (λ e, ∀ a m m',
            is_compatible_with_unification issubclass a e m = (Ok true, m') →
            typevars e ⊆ dom m') ys →
  length xs = length ys →
  all_zip (is_compatible_with_unification issubclass) xs ys m
    = (Ok true, m') →
  ⋃ (typevars <$> ys) ⊆ dom m'.
Proof.
  intros Hys. revert xs m.
  induction Hys as [|e ys He _ IH]; intros [|a xs] m Hlen; simpl in *;
    try done; try set_solver.
  unfold bind.
  destruct (is_compatible_with_unification issubclass a e m)
    as [[[]|x] m1] eqn:Ha; simpl; try done.
  intros Hrest.
  pose proof (He a m m1 Ha) as H1.
  pose proof (IH xs m1 ltac:(lia) Hrest) as H2.
  pose proof (all_zip_is_compat_extends issubclass xs ys m1) as H3.
  rewrite Hrest in H3. apply subseteq_dom in H3. simpl in H3.
  set_solver.
Qed.

Lemma is_compat_binds (issubclass : string → string → result bool)
    (actual expected : ty) (m m' : gmap string ty) :
  is_compatible_with_unification issubclass actual expected m
    = (Ok true, m') →
  typevars expected ⊆ dom m'.
Proof.
  revert actual m m'.
  induction expected as [v|c|o args IH| |o] using ty_ind_nested;
    intros actual m m' Hok; try (simpl; set_solver).
  - rewrite is_compat_TVar in Hok. simpl.
    destruct (m !! v) as [b|] eqn:Hv.
    + injection Hok as _ <-. apply elem_of_dom_2 in Hv. set_solver.
    + injection Hok as <-. rewrite dom_insert_L. set_solver.
  - rewrite is_compat_generic_expected in Hok.
    destruct (negb _); [done|].
    destruct (length (get_args actual) =? length args) eqn:Hlen; [|done].
    apply Nat.eqb_eq in Hlen. simpl in Hok.
    by eapply all_zip_binds.
Qed.

(** The only keys a call can add to the context are the TypeVars it
    reaches in the expected type ([typevars]: the type itself or,
    recursively, an element of its [get_args]); and after a True answer
    every one of them is bound. A TypeVar that is not reached this way is
    never bound, see the example that follows. *)
Theorem bindings_are_the_reachable_typevars
    (issubclass : string → string → result bool) (actual expected : ty)
    (m : gmap string ty) :
  dom (is_compatible_with_unification issubclass actual expected m).2
    ⊆ dom m ∪ typevars expected ∧
  ∀ m', is_compatible_with_unification issubclass actual expected m
          = (Ok true, m') →
        dom m' = dom m ∪ typevars expected.
Proof.
  pose proof (is_compat_dom issubclass actual expected m) as Hdom.
  split; [done|]. intros m' Hok. rewrite Hok in Hdom. simpl in Hdom.
  pose proof (is_compat_binds issubclass actual expected m m' Hok) as H1.
  pose proof (is_compat_extends issubclass actual expected m) as H2.
  rewrite Hok in H2. apply subseteq_dom in H2. simpl in H2.
  apply set_eq. intros v. set_solver.
Qed.

(** [dict[str, list[int]]] against [dict[T, list[U]]] with [V] bound. *)
Lemma bindings_are_the_reachable_typevars_witness :
  dom (<["T" := t_str]> (<["U" := t_int]> {["V" := t_bytes]}) : gmap string ty)
  = dom ({["V" := t_bytes]} : gmap string ty)
    ∪ typevars (t_dict t_T (t_list (TVar "U"))).
Proof.
  apply (bindings_are_the_reachable_typevars demo_issubclass
           (t_dict t_str (t_list t_int)) (t_dict t_T (t_list (TVar "U")))
           {["V" := t_bytes]}).
  reflexivity.
Defined.

(** [Callable[[T], int]] against itself: [get_args] gives the parameter
    list as one plain list object and [int]; the list has no origin and is
    no class, so it is compared by equality, and the call answers True
    without binding the [T] inside it. *)
Example typevar_in_callable_parameters_is_not_bound :
  is_compatible_with_unification demo_issubclass
    (TGeneric "Callable" [TOther "[T]"; t_int])
    (TGeneric "Callable" [TOther "[T]"; t_int]) ∅ = (Ok true, ∅).
Proof. reflexivity. Qed.

(** *** Repeating a check, and checking with fewer bindings *)

Lemma all_zip_stable (issubclass : string → string → result bool)
    (xs ys : list ty) (m m' n : gmap string ty) :
  Forall (λ e, ∀ a m m' n,
            is_compatible_with_unification issubclass a e m = (Ok true, m') →
            m' ⊆ n →
            is_compatible_with_unification issubclass a e n = (Ok true, n))
         ys →
  all_zip (is_compatible_with_unification issubclass) xs ys m
    = (Ok true, m') →
  m' ⊆ n →
  all_zip (is_compatible_with_unification issubclass) xs ys n = (Ok true, n).
Proof.
  intros Hys. revert xs m.
  induction Hys as [|e ys He _ IH]; intros [|a xs] m; simpl; try done.
  unfold bind.
  destruct (is_compatible_with_unification issubclass a e m)
    as [[[]|x] m1] eqn:Ha; simpl; try done.
  intros Hrest Hn.
  pose proof (all_zip_is_compat_extends issubclass xs ys m1) as Hm1.
  rewrite Hrest in Hm1. simpl in Hm1.
  rewrite (He a m m1 n Ha) by by etrans.
  by eapply IH.
Qed.

Lemma is_compat_stable
    (issubclass : string → string → result bool) (actual expected : ty)
    (m m' n : gmap string ty) :
  is_compatible_with_unification issubclass actual expected m
    = (Ok true, m') →
  m' ⊆ n →
  is_compatible_with_unification issubclass actual expected n = (Ok true, n).
Proof.
  revert actual m m' n.
  induction expected as [v|c|o args IH| |o] using ty_ind_nested;
    intros actual m m' n Hok Hn.
  - rewrite is_compat_TVar in *.
    assert (Hv : m' !! v = Some actual).
    { destruct (m !! v) as [b|] eqn:Hm.
      - injection Hok as Hb <-. apply ty_eqb_eq in Hb. congruence.
      - injection Hok as <-. apply lookup_insert_eq. }
    rewrite (lookup_weaken _ _ _ _ Hv Hn). by rewrite ty_eqb_refl.
  - destruct actual as [w|d|p xs| |p];
      try (rewrite is_compat_plain in * by done; congruence);
      try (rewrite is_compat_generic_actual in * by done; congruence).
    rewrite is_compat_classes in *.
    destruct (issubclass d c) as [b|[]]; congruence.
  - rewrite is_compat_generic_expected in *.
    destruct (negb _); [done|]. destruct (negb _); [done|].
    by eapply all_zip_stable.
  - destruct actual as [w|d|p xs| |p];
      try (rewrite is_compat_plain in * by done; congruence);
      try (rewrite is_compat_generic_actual in * by done; congruence).
  - destruct actual as [w|d|p xs| |p];
      try (rewrite is_compat_plain in * by done; congruence);
      try (rewrite is_compat_generic_actual in * by done; congruence).
Qed.

Lemma all_zip_fewer_bindings (issubclass : string → string → result bool)
    (xs ys : list ty) (m n n' : gmap string ty) :
  Forall (λ e, ∀ a m n n',
            m ⊆ n →
            is_compatible_with_unification issubclass a e n = (Ok true, n') →
            ∃ m', is_compatible_with_unification issubclass a e m
                    = (Ok true, m') ∧ m' ⊆ n') ys →
  m ⊆ n →
  all_zip (is_compatible_with_unification issubclass) xs ys n
    = (Ok true, n') →
  ∃ m', all_zip (is_compatible_with_unification issubclass) xs ys m
          = (Ok true, m') ∧ m' ⊆ n'.
Proof.
  intros Hys. revert xs m n.
  induction Hys as [|e ys He _ IH]; intros [|a xs] m n Hmn; simpl;
    unfold ret; try (intros [= <-]; by eauto).
  unfold bind.
  destruct (is_compatible_with_unification issubclass a e n)
    as [[[]|x] n1] eqn:Ha; simpl; try done.
  intros Hrest.
  destruct (He a m n n1 Hmn Ha) as (m1 & -> & Hm1).
  by eapply IH.
Qed.

(** Bindings only constrain: a check that answers True in a context answers
    True in every smaller context, and leaves a smaller context behind. So
    a pair that is rejected stays rejected when bindings are added. *)
Theorem fewer_bindings_keep_success
    (issubclass : string → string → result bool) (actual expected : ty)
    (m n n' : gmap string ty) :
  m ⊆ n →
  is_compatible_with_unification issubclass actual expected n
    = (Ok true, n') →
  ∃ m', is_compatible_with_unification issubclass actual expected m
          = (Ok true, m') ∧ m' ⊆ n'.
Proof.
  assert (Hground : ∀ e a (m n n' : gmap string ty),
            typevars e = ∅ → m ⊆ n →
            is_compatible_with_unification issubclass a e n = (Ok true, n') →
            ∃ m', is_compatible_with_unification issubclass a e m
                    = (Ok true, m') ∧ m' ⊆ n').
  { intros e a k1 k2 k2' He Hk Hok.
    rewrite is_compat_ground in Hok by done.
    rewrite is_compat_ground by done.
    injection Hok as Hb <-. exists k1. split; [by rewrite Hb | done]. }
  revert actual m n n'.
  induction expected as [v|c|o args IH| |o] using ty_ind_nested;
    intros actual m n n' Hmn Hok; try by eapply Hground.
  - rewrite is_compat_TVar in *.
    destruct (n !! v) as [b|] eqn:Hn.
    + injection Hok as Hb <-. apply ty_eqb_eq in Hb as ->.
      destruct (m !! v) as [b'|] eqn:Hm.
      * rewrite (lookup_weaken _ _ _ _ Hm Hmn) in Hn. injection Hn as ->.
        rewrite ty_eqb_refl. eauto.
      * eexists; split; [done|]. by apply insert_subseteq_l.
    + injection Hok as <-.
      rewrite (lookup_weaken_None _ _ _ Hn Hmn).
      eexists; split; [done|]. by apply insert_mono.
  - rewrite is_compat_generic_expected in *.
    destruct (negb _); [done|]. destruct (negb _); [done|].
    by eapply all_zip_fewer_bindings.
Qed.

Lemma fewer_bindings_keep_success_witness :
  ∃ m', is_compatible_with_unification demo_issubclass
          (t_dict t_str t_int) (t_dict t_T (TVar "U")) {["U" := t_int]}
          = (Ok true, m') ∧
        m' ⊆ <["T" := t_str]> (<["U" := t_int]> {["V" := t_bytes]}).
Proof.
  apply (fewer_bindings_keep_success demo_issubclass
           (t_dict t_str t_int) (t_dict t_T (TVar "U"))
           {["U" := t_int]} (<["U" := t_int]> {["V" := t_bytes]})).
  - apply insert_mono, map_empty_subseteq.
  - reflexivity.
Defined.

(** *** Reflexivity *)






(** *** Transitivity on types without TypeVars *)

Lemma all_zip_ground_Forall2 (issubclass : string → string → result bool)
    (xs ys : list ty) (m : gmap string ty) :
  Forall (λ e, typevars e = ∅) ys →
  length xs = length ys →
  (all_zip (is_compatible_with_unification issubclass) xs ys m).1 = Ok true
  ↔ Forall2 (λ x y, is_compatible issubclass x y = Ok true) xs ys.
Proof.
  intros Hys. revert xs m.
  induction Hys as [|e ys He _ IH]; intros [|a xs] m Hlen; simpl in *;
    try done.
  unfold bind. rewrite is_compat_ground by done.
  rewrite Forall2_cons.
  destruct (is_compatible issubclass a e) as [[]|x]; simpl.
  - rewrite IH by lia. naive_solver.
  - naive_solver.
  - naive_solver.
Qed.

(** Against a generic type without TypeVars, the compatible types are the
    generic types of the same origin whose arguments are compatible one by
    one. *)
Lemma is_compatible_generic_ground
    (issubclass : string → string → result bool) (actual : ty) (o : string)
    (args : list ty) :
  typevars (TGeneric o args) = ∅ →
  is_compatible issubclass actual (TGeneric o args) = Ok true
  ↔ ∃ xs, actual = TGeneric o xs ∧
          Forall2 (λ x y, is_compatible issubclass x y = Ok true) xs args.
Proof.
  intros Hground. apply typevars_generic_empty in Hground.
  unfold is_compatible at 1. rewrite is_compat_generic_expected.
  destruct actual as [w|d|p xs| |p]; simpl;
    try (split; [done | by intros (? & ? & ?)]).
  unfold origin_eqb. case_bool_decide as Hp; simpl.
  - injection Hp as ->.
    destruct (length xs =? length args) eqn:Hlen; simpl.
    + apply Nat.eqb_eq in Hlen.
      rewrite all_zip_ground_Forall2 by done.
      split; [by eauto|]. by intros (? & [= <-] & ?).
    + apply Nat.eqb_neq in Hlen. split; [done|].
      intros (? & [= <-] & H). by apply Forall2_length in H.
  - split; [done|]. intros (? & [= <- <-] & _). done.
Qed.

Lemma is_compatible_classes_true
    (issubclass : string → string → result bool) (ca ce : string) :
  is_compatible issubclass (TClass ca) (TClass ce) = Ok true
  ↔ issubclass ca ce = Ok true ∨
    (ca = ce ∧ issubclass ca ce ≠ Raise ValueError ∧
     ∀ b, issubclass ca ce ≠ Ok b).
Proof.
  unfold is_compatible. rewrite is_compat_classes.
  destruct (issubclass ca ce) as [b|[]]; simpl.
  - split; [intros [= ->]; by left|].
    intros [[= ->]|(_ & _ & H)]; [done|]. by destruct (H b).
  - split.
    + intros [= H]. apply bool_decide_eq_true in H as ->. right.
      by split_and!.
    + intros [?|(-> & _)]; [done|]. by rewrite bool_decide_eq_true_2.
  - split; [done|]. intros [?|(_ & ? & _)]; done.
  - split.
    + intros [= H]. apply bool_decide_eq_true in H as ->. right.
      by split_and!.
    + intros [?|(-> & _)]; [done|]. by rewrite bool_decide_eq_true_2.
Qed.

(** On types without TypeVars compatibility is transitive whenever
    [issubclass] is: if [a] is accepted where [b] is expected and [b] where
    [c] is expected, then [a] is accepted where [c] is expected. *)
Theorem is_compatible_trans (issubclass : string → string → result bool)
    (a b c : ty) :
  (∀ x y z, issubclass x y = Ok true → issubclass y z = Ok true →
            issubclass x z = Ok true) →
  typevars b = ∅ → typevars c = ∅ →
  is_compatible issubclass a b = Ok true →
  is_compatible issubclass b c = Ok true →
  is_compatible issubclass a c = Ok true.
Proof.
  intros Htrans. revert a b.
  induction c as [v|cc|o args IH| |o] using ty_ind_nested;
    intros a b Hb Hc Hab Hbc.
  - simpl in Hc. set_solver.
  - (* the expected type is a class: so are b and a *)
    destruct b as [w|cb|p ys| |p]; try done.
    destruct a as [w|ca|p xs| |p]; try done.
    apply is_compatible_classes_true in Hab, Hbc.
    destruct Hbc as [Hbc|(<- & _)]; [|by apply is_compatible_classes_true].
    destruct Hab as [Hab|(-> & _)].
    + apply is_compatible_classes_true. left. by eapply Htrans.
    + apply is_compatible_classes_true. by left.
  - apply is_compatible_generic_ground in Hbc as (ys & -> & Hys); [|done].
    apply is_compatible_generic_ground in Hab as (xs & -> & Hxs); [|done].
    apply is_compatible_generic_ground; [done|].
    exists xs. split; [done|].
    apply typevars_generic_empty in Hb, Hc.
    clear Htrans. revert xs Hxs Hb.
    induction Hys as [|y e ys args Hye Hys IHys]; intros xs Hxs Hb.
    + apply Forall2_nil_inv_r in Hxs as ->. constructor.
    + apply Forall2_cons_inv_r in Hxs as (x & xs' & Hxy & Hxs' & ->).
      apply Forall_cons in IH as [IHe IHargs].
      apply Forall_cons in Hb as [Hy Hb].
      apply Forall_cons in Hc as [He Hc].
      constructor; [by eapply IHe | by apply IHys].
  - (* the expected type is None: so is b *)
    destruct b as [w|cb|p ys| |p]; try done.
  - destruct b as [w|cb|p ys| |p]; try done.
    unfold is_compatible in Hbc. rewrite is_compat_plain in Hbc by done.
    injection Hbc as Heq. apply bool_decide_eq_true in Heq as ->. done.
Qed.

Lemma demo_issubclass_true (x y : string) :
  demo_issubclass x y = Ok true ↔ y ≠ "Proto" ∧ y ∈ demo_mro x.
Proof.
  unfold demo_issubclass.
  assert (Hin : ∀ l, existsb (String.eqb y) l = true ↔ y ∈ l).
  { induction l as [|h l IH]; simpl; [by rewrite elem_of_nil|].
    rewrite orb_true_iff, IH, elem_of_cons, String.eqb_eq. done. }
  destruct (String.eqb y "Proto") eqn:Hy.
  - apply String.eqb_eq in Hy. naive_solver.
  - apply String.eqb_neq in Hy. rewrite <- Hin.
    split; [intros [= ->]; done | intros [_ ->]; done].
Qed.

Lemma demo_issubclass_trans (x y z : string) :
  demo_issubclass x y = Ok true → demo_issubclass y z = Ok true →
  demo_issubclass x z = Ok true.
Proof.
  rewrite !demo_issubclass_true. unfold demo_mro.
  intros [_ Hxy] [Hz Hyz]. split; [done|].
  destruct (String.eqb y "bool") eqn:Hy.
  - apply String.eqb_eq in Hy as ->.
    destruct (String.eqb x "bool") eqn:Hx; [done|].
    apply String.eqb_neq in Hx. set_solver.
  - destruct (String.eqb x "bool"); set_solver.
Qed.

(** [list[bool]] where [list[int]] is expected, and [list[int]] where
    [list[object]] is expected. *)
Lemma is_compatible_trans_witness :
  is_compatible demo_issubclass (t_list t_bool) (t_list (TClass "object"))
    = Ok true.
Proof.
  apply (is_compatible_trans demo_issubclass
           (t_list t_bool) (t_list t_int) (t_list (TClass "object")));
    try reflexivity.
  apply demo_issubclass_trans.
Defined.

(** * Further properties of the method checker *)

Lemma pairs_unify_cons_inv (issubclass : string → string → result bool)
    (a e : ty) (xs ys : list ty) (m m' : gmap string ty) :
  pairs_unify issubclass (a :: xs) (e :: ys) m m' →
  ∃ m1, is_compatible_with_unification issubclass a e m = (Ok true, m1) ∧
        pairs_unify issubclass xs ys m1 m'.
Proof. inversion 1; subst. eauto. Qed.

Lemma pairs_unify_app (issubclass : string → string → result bool)
    (xs1 ys1 xs2 ys2 : list ty) (m m' : gmap string ty) :
  length xs1 = length ys1 →
  pairs_unify issubclass (xs1 ++ xs2) (ys1 ++ ys2) m m'
  ↔ ∃ m1, pairs_unify issubclass xs1 ys1 m m1 ∧
          pairs_unify issubclass xs2 ys2 m1 m'.
Proof.
  revert ys1 m. induction xs1 as [|a xs1 IH]; intros [|e ys1] m Hlen;
    simpl in *; try done.
  - split.
    + intros H. exists m. split; [constructor | done].
    + intros (m1 & H1 & H2). by inversion H1; subst.
  - split.
    + inversion 1 as [|? ? ? ? ? k1 ? Ha Hrest]; subst.
      apply IH in Hrest as (m1 & H1 & H2); [|lia].
      exists m1. split; [by econstructor | done].
    + intros (m1 & H1 & H2).
      inversion H1 as [|? ? ? ? ? k1 ? Ha Hrest]; subst.
      econstructor; [done|]. apply IH; [lia|]. by eauto.
Qed.

(** The loop runs to its end exactly when the two name lists are equal,
    the candidate declares a type wherever the protocol does, and those
    pairs of types unify one after the other. *)
Lemma check_params_true_iff (issubclass : string → string → result bool)
    (aa pa : gmap string ty) (xs ys : list string) (m m' : gmap string ty) :
  length xs = length ys →
  check_params issubclass aa pa xs ys m = (Ok true, m')
  ↔ xs = ys ∧
    Forall (declares aa)
      (List.filter (λ k, negb (is_None (dict_get pa k))) ys) ∧
    pairs_unify issubclass
      (dict_get aa <$> List.filter (λ k, negb (is_None (dict_get pa k))) ys)
      (dict_get pa <$> List.filter (λ k, negb (is_None (dict_get pa k))) ys)
      m m'.
Proof.
  revert ys m. induction xs as [|x xs IH]; intros [|y ys] m Hlen;
    simpl in *; try done.
  - unfold ret. split.
    + intros [= <-]. split_and!; [done | constructor | constructor].
    + intros (_ & _ & H). by inversion H.
  - destruct (String.eqb x y) eqn:Hxy; simpl.
    2:{ apply String.eqb_neq in Hxy. split; [done|]. by intros ([= ? ?] & _). }
    apply String.eqb_eq in Hxy as ->.
    destruct (is_None (dict_get pa y)) eqn:Hpy; simpl.
    { rewrite IH by lia. naive_solver. }
    rewrite Forall_cons. unfold declares at 1.
    destruct (is_None (dict_get aa y)) eqn:Hay.
    { split; [done|]. intros (_ & [Hd _] & _).
      by destruct (dict_get aa y). }
    assert (Hd : dict_get aa y ≠ TNone) by (by destruct (dict_get aa y)).
    unfold bind.
    destruct (is_compatible_with_unification issubclass
                (dict_get aa y) (dict_get pa y) m) as [[[]|e] m1] eqn:Hc;
      simpl.
    + rewrite IH by lia. split.
      * intros (-> & Hf & Hp). split_and!; try done. by econstructor.
      * intros ([= ->] & [_ Hf] & Hp). split_and!; try done.
        apply pairs_unify_cons_inv in Hp as (k & Hk & Hp).
        rewrite Hc in Hk. injection Hk as <-. exact Hp.
    + split; [done|]. intros (_ & _ & Hp).
      apply pairs_unify_cons_inv in Hp as (k & Hk & Hp). congruence.
    + split; [done|]. intros (_ & _ & Hp).
      apply pairs_unify_cons_inv in Hp as (k & Hk & Hp). congruence.
Qed.

(** The method checker answers True exactly when both signatures can be
    read and list the same names in the same order, both methods are
    coroutine functions or neither is, the candidate declares a type for
    every name the protocol declares one for, and the declared types,
    parameters first and return last, unify one after the other in the
    shared context: a method check is the check of two tuples of types. *)
Theorem method_check_is_a_tuple_check
    (issubclass : string → string → result bool) (am pm : method)
    (m m' : gmap string ty) :
  are_compatible_with_unification issubclass am pm m = (Ok true, m')
  ↔ ∃ names,
      m_signature am = Ok names ∧
      protocol_signature pm = Ok names ∧
      m_iscoroutine am = m_iscoroutine pm ∧
      Forall (declares (m_annotations am))
        (compared_names (m_annotations pm) names) ∧
      pairs_unify issubclass
        (dict_get (m_annotations am)
           <$> compared_names (m_annotations pm) names)
        (dict_get (m_annotations pm)
           <$> compared_names (m_annotations pm) names)
        m m'.
Proof.
  rewrite are_compat_of_body.
  unfold are_compatible_body, bind, lift, ret, compared_names.
  set (aa := m_annotations am). set (pa := m_annotations pm).
  destruct (m_signature am) as [xs|e]; [|by split; [|intros (? & ? & _)]].
  destruct (protocol_signature pm) as [ys|e];
    [|by split; [|intros (? & _ & ? & _)]].
  destruct (Bool.eqb (m_iscoroutine am) (m_iscoroutine pm)) eqn:Hco; simpl.
  2:{ split; [done|]. intros (? & _ & _ & Heq & _).
      rewrite Heq, Bool.eqb_reflx in Hco. done. }
  apply Bool.eqb_prop in Hco.
  destruct (length xs =? length ys) eqn:Hlen; simpl.
  2:{ apply Nat.eqb_neq in Hlen. split; [done|].
      intros (? & [= ->] & [= ->] & _). done. }
  apply Nat.eqb_eq in Hlen.
  pose proof (check_params_true_iff issubclass aa pa xs ys m) as Hcp.
  destruct (check_params issubclass aa pa xs ys m) as [[[]|e] m1] eqn:Hck;
    simpl.
  - destruct (proj1 (Hcp m1 Hlen) eq_refl) as (-> & Hf & Hp).
    assert (Hlen' :
              length (dict_get aa <$>
                        List.filter (λ k, negb (is_None (dict_get pa k))) ys)
              = length (dict_get pa <$>
                        List.filter (λ k, negb (is_None (dict_get pa k))) ys))
      by by rewrite !length_fmap.
    assert (Huniq : ∀ k, pairs_unify issubclass
              (dict_get aa <$>
                 List.filter (λ k, negb (is_None (dict_get pa k))) ys)
              (dict_get pa <$>
                 List.filter (λ k, negb (is_None (dict_get pa k))) ys) m k →
              k = m1).
    { intros k Hk.
      pose proof (proj2 (Hcp k Hlen) (conj eq_refl (conj Hf Hk))) as Heq.
      by injection Heq. }
    destruct (is_None (dict_get pa "return")) eqn:Hret; simpl.
    + split.
      * intros [= <-]. exists ys. rewrite !app_nil_r. by split_and!.
      * intros (? & [= <-] & _ & _ & _ & Hp'). rewrite !app_nil_r in Hp'.
        by rewrite (Huniq _ Hp').
    + destruct (is_None (dict_get aa "return")) eqn:Haret.
      * split; [done|]. intros (? & [= <-] & _ & _ & Hf' & _).
        apply Forall_app in Hf' as [_ Hf']. rewrite Forall_singleton in Hf'.
        unfold declares in Hf'. revert Haret Hf'.
        by destruct (dict_get aa "return").
      * destruct (is_compatible_with_unification issubclass
                    (dict_get aa "return") (dict_get pa "return") m1)
          as [[[]|e] m2] eqn:Hc; simpl.
        -- split.
           ++ intros [= <-]. exists ys. split_and!; try done.
              ** apply Forall_app. split; [done|]. apply Forall_singleton.
                 unfold declares. revert Haret.
                 by destruct (dict_get aa "return").
              ** rewrite !fmap_app. apply pairs_unify_app; [done|].
                 exists m1. split; [done|].
                 econstructor; [done | constructor].
           ++ intros (? & [= <-] & _ & _ & _ & Hp').
              rewrite !fmap_app in Hp'.
              apply pairs_unify_app in Hp' as (k & Hk1 & Hk2); [|done].
              apply Huniq in Hk1 as ->.
              apply pairs_unify_cons_inv in Hk2 as (k2 & Ha & Hnil).
              inversion Hnil; subst. congruence.
        -- split; [done|]. intros (? & [= <-] & _ & _ & _ & Hp').
           rewrite !fmap_app in Hp'.
           apply pairs_unify_app in Hp' as (k & Hk1 & Hk2); [|done].
           apply Huniq in Hk1 as ->.
           apply pairs_unify_cons_inv in Hk2 as (k2 & Ha & Hnil). congruence.
        -- split; [done|]. intros (? & [= <-] & _ & _ & _ & Hp').
           rewrite !fmap_app in Hp'.
           apply pairs_unify_app in Hp' as (k & Hk1 & Hk2); [|done].
           apply Huniq in Hk1 as ->.
           apply pairs_unify_cons_inv in Hk2 as (k2 & Ha & Hnil). congruence.
  - split; [done|]. intros (? & [= <-] & [= <-] & _ & Hf & Hp).
    rewrite fmap_app in Hp. rewrite fmap_app in Hp.
    apply pairs_unify_app in Hp as (k & Hk1 & _);
      [|by rewrite !length_fmap].
    apply Forall_app in Hf as [Hf _].
    by pose proof (proj2 (Hcp k Hlen) (conj eq_refl (conj Hf Hk1))).
  - split; [done|]. intros (? & [= <-] & [= <-] & _ & Hf & Hp).
    rewrite fmap_app in Hp. rewrite fmap_app in Hp.
    apply pairs_unify_app in Hp as (k & Hk1 & _);
      [|by rewrite !length_fmap].
    apply Forall_app in Hf as [Hf _].
    by pose proof (proj2 (Hcp k Hlen) (conj eq_refl (conj Hf Hk1))).
Qed.

(** *** Protocols without TypeVars *)

Lemma dict_get_ground (d : gmap string ty) (k : string) :
  map_Forall (λ _ t, typevars t = ∅) d → typevars (dict_get d k) = ∅.
Proof.
  intros Hd. unfold dict_get. destruct (d !! k) as [t|] eqn:Hk; simpl.
  - by eapply Hd.
  - done.
Qed.

Lemma check_params_ground (issubclass : string → string → result bool)
    (aa pa : gmap string ty) (xs ys : list string) (m : gmap string ty) :
  map_Forall (λ _ t, typevars t = ∅) pa →
  check_params issubclass aa pa xs ys m
  = ((check_params issubclass aa pa xs ys ∅).1, m).
Proof.
  intros Hpa. revert ys m.
  induction xs as [|x xs IH]; intros [|y ys] m; simpl; try done.
  destruct (negb (String.eqb x y)); [done|].
  destruct (negb (is_None (dict_get pa y))); [|apply IH].
  destruct (is_None (dict_get aa x)); [done|].
  unfold bind.
  rewrite !(is_compat_ground issubclass _ (dict_get pa y))
    by by apply dict_get_ground.
  destruct (is_compatible issubclass _ _) as [[]|e]; simpl; [apply IH|done..].
Qed.

(** The entry points that start from an empty context give the answer of
    the full ones whenever the expected side has no TypeVars: a type
    without TypeVars, or a protocol method whose annotations have none,
    never touches the context, and the answer does not depend on it. *)
Theorem ground_protocol_ignores_context
    (issubclass : string → string → result bool) (m : gmap string ty) :
  (∀ actual expected,
     typevars expected = ∅ →
     is_compatible_with_unification issubclass actual expected m
     = (is_compatible issubclass actual expected, m)) ∧
  (∀ am pm,
     map_Forall (λ _ t, typevars t = ∅) (m_annotations pm) →
     are_compatible_with_unification issubclass am pm m
     = (are_compatible issubclass am pm, m)).
Proof.
  split; [intros; by apply is_compat_ground|].
  intros am pm Hpm. unfold are_compatible.
  rewrite !are_compat_of_body.
  unfold are_compatible_body, bind, lift, ret.
  destruct (m_signature am) as [xs|e]; [|done].
  destruct (protocol_signature pm) as [ys|e]; [|done].
  destruct (negb (Bool.eqb _ _)); [done|].
  destruct (negb (_ =? _)); [done|].
  rewrite (check_params_ground issubclass _ _ xs ys m) by done.
  rewrite (check_params_ground issubclass _ _ xs ys ∅) by done.
  destruct (check_params issubclass _ _ xs ys ∅) as [[[]|e] k]; simpl;
    try done.
  destruct (negb (is_None _)); [|done].
  destruct (is_None _); [done|].
  rewrite !(is_compat_ground issubclass _
              (dict_get (m_annotations pm) "return"))
    by by apply dict_get_ground.
  by destruct (is_compatible issubclass _ _) as [[]|e].
Qed.

Lemma validate_protocol_ground :
  map_Forall (λ _ t, typevars t = ∅) (m_annotations validate_protocol).
Proof.
  intros k t. unfold validate_protocol, def. simpl.
  rewrite !lookup_insert_Some, lookup_empty.
  intros [[_ <-]|[_ [[_ <-]|[_ ?]]]]; done.
Qed.

(** [dict[str, bool]] against [dict[str, int]], and [validate] with a
    [bool] parameter against the protocol's, in a context that binds [T]. *)
Lemma ground_protocol_ignores_context_witness :
  is_compatible_with_unification demo_issubclass
    (t_dict t_str t_bool) (t_dict t_str t_int) {["T" := t_bytes]}
  = (is_compatible demo_issubclass (t_dict t_str t_bool) (t_dict t_str t_int),
     {["T" := t_bytes]}) ∧
  are_compatible_with_unification demo_issubclass
    validate_bool validate_protocol {["T" := t_bytes]}
  = (are_compatible demo_issubclass validate_bool validate_protocol,
     {["T" := t_bytes]}).
Proof.
  destruct (ground_protocol_ignores_context demo_issubclass
              {["T" := t_bytes]}) as [Htype Hmethod].
  split.
  - apply Htype. reflexivity.
  - apply Hmethod. apply validate_protocol_ground.
Defined.

(** *** Repeating a check *)

Lemma check_params_stable (issubclass : string → string → result bool)
    (aa pa : gmap string ty) (xs ys : list string) (m m' n : gmap string ty) :
  check_params issubclass aa pa xs ys m = (Ok true, m') →
  m' ⊆ n →
  check_params issubclass aa pa xs ys n = (Ok true, n).
Proof.
  revert ys m. induction xs as [|x xs IH]; intros [|y ys] m; simpl;
    try done.
  destruct (negb (String.eqb x y)); [done|].
  destruct (negb (is_None (dict_get pa y))); [|apply IH].
  destruct (is_None (dict_get aa x)); [done|].
  unfold bind.
  destruct (is_compatible_with_unification issubclass _ _ m)
    as [[[]|e] m1] eqn:Hc; simpl; try done.
  intros Hrest Hn.
  pose proof (check_params_extends issubclass aa pa xs ys m1) as Hm1.
  rewrite Hrest in Hm1. simpl in Hm1.
  rewrite (is_compat_stable issubclass _ _ m m1 n Hc) by by etrans.
  simpl. by eapply IH.
Qed.

(** A check of a type or of a method that answered True answers True
    again, and changes nothing, in every context that extends the one it
    left: the bindings it made are the ones it needs, so members of a
    protocol that passed stay passed while the shared context grows. *)
Theorem successful_check_is_stable
    (issubclass : string → string → result bool) (m m' n : gmap string ty) :
  m' ⊆ n →
  (∀ actual expected,
     is_compatible_with_unification issubclass actual expected m
       = (Ok true, m') →
     is_compatible_with_unification issubclass actual expected n
       = (Ok true, n)) ∧
  (∀ am pm,
     are_compatible_with_unification issubclass am pm m = (Ok true, m') →
     are_compatible_with_unification issubclass am pm n = (Ok true, n)).
Proof.
  intros Hn. split; [intros; by eapply is_compat_stable|].
  intros am pm Hok.
  apply are_compat_true_inv in Hok
    as (xs & ys & m1 & Hxs & Hys & Hco & Hlen & Hcp & Hret).
  rewrite are_compat_of_body.
  unfold are_compatible_body, bind, lift, ret.
  rewrite Hxs, Hys, Hco, Bool.eqb_reflx, Hlen, Nat.eqb_refl. simpl.
  assert (Hm1 : m1 ⊆ n).
  { destruct (is_None (dict_get (m_annotations pm) "return")).
    - by subst.
    - destruct Hret as [_ Hret].
      pose proof (is_compat_extends issubclass
                    (dict_get (m_annotations am) "return")
                    (dict_get (m_annotations pm) "return") m1) as Hext.
      rewrite Hret in Hext. by etrans. }
  rewrite (check_params_stable issubclass _ _ xs ys m m1 n Hcp Hm1). simpl.
  destruct (is_None (dict_get (m_annotations pm) "return")); [done|].
  destruct Hret as [-> Hret]. simpl.
  by rewrite (is_compat_stable issubclass _ _ m1 m' n Hret Hn).
Qed.

(** After [dict[str, str]] passed against [dict[T, T]], and after
    [process(self, item: str) -> str] passed against
    [process(self, item: T) -> T], both pass again with [U] bound too. *)
Lemma successful_check_is_stable_witness :
  is_compatible_with_unification demo_issubclass
    (t_dict t_str t_str) (t_dict t_T t_T)
    (<["U" := t_int]> {["T" := t_str]})
  = (Ok true, <["U" := t_int]> {["T" := t_str]}) ∧
  are_compatible_with_unification demo_issubclass
    (def ["self"; "item"] [("item", t_str); ("return", t_str)])
    process_generic (<["U" := t_int]> {["T" := t_str]})
  = (Ok true, <["U" := t_int]> {["T" := t_str]}).
Proof.
  destruct (successful_check_is_stable demo_issubclass
              ∅ {["T" := t_str]} (<["U" := t_int]> {["T" := t_str]}))
    as [Htype Hmethod].
  - apply insert_subseteq. reflexivity.
  - split; [apply Htype | apply Hmethod]; reflexivity.
Defined.

(** *** A method against itself *)




(** *** Which TypeVars a method check binds *)

Lemma check_params_dom (issubclass : string → string → result bool)
    (aa pa : gmap string ty) (xs ys : list string) (m : gmap string ty)
    (v : string) :
  v ∈ dom (check_params issubclass aa pa xs ys m).2 →
  v ∈ dom m ∨ ∃ k, v ∈ typevars (dict_get pa k).
Proof.
  revert ys m. induction xs as [|x xs IH]; intros [|y ys] m; simpl;
    try by left.
  destruct (negb (String.eqb x y)); [by left|].
  destruct (negb (is_None (dict_get pa y))); [|apply IH].
  destruct (is_None (dict_get aa x)); [by left|].
  unfold bind.
  pose proof (is_compat_dom issubclass (dict_get aa x) (dict_get pa y) m)
    as Hdom.
  destruct (is_compatible_with_unification issubclass _ _ m)
    as [[[]|e] m1]; simpl in *.
  - intros Hv. apply IH in Hv as [Hv|Hv]; [|by right].
    apply Hdom, elem_of_union in Hv as [Hv|Hv]; [by left|]. right. eauto.
  - intros Hv. apply Hdom, elem_of_union in Hv as [Hv|Hv]; [by left|].
    right. eauto.
  - intros Hv. apply Hdom, elem_of_union in Hv as [Hv|Hv]; [by left|].
    right. eauto.
Qed.

(** The only keys a method check can add to the context are TypeVars that
    occur in the protocol method's annotations: a TypeVar that occurs only
    in the candidate's annotations is never bound. *)
Theorem method_bindings_are_typevars_of_protocol
    (issubclass : string → string → result bool) (am pm : method)
    (m : gmap string ty) (v : string) :
  v ∈ dom (are_compatible_with_unification issubclass am pm m).2 →
  v ∈ dom m ∨
  ∃ k t, m_annotations pm !! k = Some t ∧ v ∈ typevars t.
Proof.
  assert (Hget : (∃ k, v ∈ typevars (dict_get (m_annotations pm) k)) →
                 ∃ k t, m_annotations pm !! k = Some t ∧ v ∈ typevars t).
  { intros [k Hk]. unfold dict_get in Hk.
    destruct (m_annotations pm !! k) as [t|] eqn:Hl; simpl in Hk.
    - eauto.
    - set_solver. }
  rewrite are_compat_of_body.
  unfold are_compatible_body, bind, lift, ret.
  destruct (m_signature am) as [xs|e]; [|by left].
  destruct (protocol_signature pm) as [ys|e]; [|by left].
  destruct (negb (Bool.eqb _ _)); [by left|].
  destruct (negb (_ =? _)); [by left|].
  pose proof (check_params_dom issubclass (m_annotations am)
                (m_annotations pm) xs ys m v) as Hcp.
  destruct (check_params issubclass _ _ xs ys m) as [[[]|e] m1];
    simpl in *; try (intros Hv; destruct (Hcp Hv); by eauto).
  destruct (negb (is_None _));
    [|intros Hv; destruct (Hcp Hv); by eauto].
  destruct (is_None _); [intros Hv; destruct (Hcp Hv); by eauto|].
  pose proof (is_compat_dom issubclass
                (dict_get (m_annotations am) "return")
                (dict_get (m_annotations pm) "return") m1) as Hdom.
  destruct (is_compatible_with_unification issubclass _ _ m1)
    as [[[]|e] m2]; simpl in *;
    (intros Hv; apply Hdom, elem_of_union in Hv as [Hv|Hv];
     [destruct (Hcp Hv); by eauto | right; apply Hget; by eauto]).
Qed.

(** [def process(self, item: U) -> U] against
    [def process(self, item: T) -> T]: [T] is bound, to the candidate's
    [U], and [U] is not. *)
Lemma method_bindings_are_typevars_of_protocol_witness :
  (are_compatible_with_unification demo_issubclass
     (def ["self"; "item"] [("item", TVar "U"); ("return", TVar "U")])
     process_generic ∅).2 = {["T" := TVar "U"]} ∧
  ("T" ∈ dom (∅ : gmap string ty) ∨
   ∃ k t, m_annotations process_generic !! k = Some t ∧ "T" ∈ typevars t).
Proof.
  split; [reflexivity|].
  apply (method_bindings_are_typevars_of_protocol demo_issubclass
           (def ["self"; "item"] [("item", TVar "U"); ("return", TVar "U")])
           process_generic ∅ "T").
  vm_compute. reflexivity.
Defined.
